(** * A relational layer over an ordered key-value store

    Shallow embedding of [go-baderdb-multi-table-ex/main.go]: the
    identifier allocator ([initCounters], [getNextID]), the generic record
    store ([create], [get], [list]) and the five join and aggregation
    queries built on top of them.

    Conventions of the embedding.
    - Keys and values are byte strings ([string]); the store is a finite
      map whose iterator yields the keys in ascending byte order.
    - [int64] is [Z] with the wrap-around of Go's arithmetic written out
      ([Int64.wrap64]). An [int] that counts the elements of a slice is a
      [Z] as well; it is bounded by the length of the slice.
    - [float64] is the IEEE-754 binary64 format of the Standard Library
      ([spec_float] at precision 53, with [SFadd] and [SFltb]); a
      [time.Time] is a [Z].
    - [encoding/json] is an interface ([JSON]): one encoder and one decoder
      per Go type, and the validity of a raw message ([Valid]).
    - What is left to the store and to the scheduler is a parameter: the
      transactions the store rejects ([faults]), and what the byte slices
      that [list] keeps hold once its iterator has moved past the
      prefetch ([Lent]).
    - A method of [*BadgerService] is a computation in the state monad [M]
      over the service: the database handle and the in-memory counters.
      Calls are taken one after the other, so the mutex of the service has
      no counterpart.
    - A function of Go returning [(T, error)] returns a pair
      [T * option error]; where only the error is returned and the value
      is written through a pointer, it returns a [result]. *)

From Stdlib Require Import ZArith String Ascii List Lia.
From Stdlib Require Import Floats.SpecFloat.
From stdpp Require Import gmap strings list fin_maps sorting pretty.

Local Open Scope string_scope.
Local Open Scope list_scope.
Local Open Scope Z_scope.

(** * Machine numbers *)

Module Int64.
Definition min_int : Z := - 2 ^ 63.
Definition max_int : Z := 2 ^ 63 - 1.

(** Two's complement wrap-around of a 64-bit signed integer. *)
Definition wrap64 (z : Z) : Z := (z + 2 ^ 63) mod 2 ^ 64 - 2 ^ 63.

(** [x++] on an [int64]. *)
Definition incr (x : Z) : Z := wrap64 (x + 1).
End Int64.

Module Float64.
Definition prec : Z := 53.
Definition emax : Z := 1024.

Definition add : spec_float → spec_float → spec_float := SFadd prec emax.

(** [gt x y] is Go's [x > y]. *)
Definition gt (x y : spec_float) : bool := SFltb y x.

(** The zero value of a [float64]. *)
Definition zero : spec_float := S754_zero false.

(** The [float64] nearest to an integer. *)
Definition of_Z (z : Z) : spec_float := binary_normalize prec emax z 0 false.



(** [sum xs] accumulates [total += x] over [xs] from the zero value. *)
Definition sum (xs : list spec_float) : spec_float := foldl add zero xs.



End Float64.

(** * Entities *)

Record User := mkUser {
  user_ID : Z;
  user_Name : string;
  user_Email : string;
  user_CompanyID : Z;
  user_CreatedAt : Z
}.

Record Company := mkCompany {
  company_ID : Z;
  company_Name : string;
  company_Industry : string;
  company_CreatedAt : Z
}.

Record Order := mkOrder {
  order_ID : Z;
  order_UserID : Z;
  order_ProductID : Z;
  order_Quantity : Z;
  order_Amount : spec_float;
  order_Status : string;
  order_CreatedAt : Z
}.

Record Product := mkProduct {
  product_ID : Z;
  product_Name : string;
  product_Price : spec_float;
  product_CategoryID : Z;
  product_CompanyID : Z;
  product_Description : string
}.

Record Category := mkCategory {
  category_ID : Z;
  category_Name : string
}.

(** The zero value of [Category], read from a map on a missing key. *)
Definition zeroCategory : Category := mkCategory 0 "".

Record UserWithCompany := mkUserWithCompany {
  uc_User : User;
  uc_Company : Company
}.

Record OrderWithDetails := mkOrderWithDetails {
  od_Order : Order;
  od_User : User;
  od_Product : Product;
  od_Category : Category
}.

Record CompanyStats := mkCompanyStats {
  cs_Company : Company;
  cs_UserCount : Z;
  cs_OrderCount : Z;
  cs_TotalRevenue : spec_float
}.

(** The anonymous result struct of [GetTopSellingProductsByCategory]. *)
Record ProductStats := mkProductStats {
  ps_Product : Product;
  ps_TotalOrders : Z;
  ps_TotalRevenue : spec_float
}.

(** * Errors and the JSON interface *)

Inductive error :=
  | ErrKeyNotFound                       (* badger.ErrKeyNotFound *)
  | ErrMarshal                           (* json.Marshal failed *)
  | ErrUnmarshal                         (* json.Unmarshal failed *)
  | ErrTxn                               (* the store rejected the transaction *)
  | ErrWrap (msg : string) (e : error).  (* fmt.Errorf("msg: %w", e) *)

(** [errors.Is(e, badger.ErrKeyNotFound)]: looks through the wrapping. *)
Fixpoint is_not_found (e : error) : bool :=
  match e with
  | ErrKeyNotFound => true
  | ErrWrap _ e' => is_not_found e'
  | _ => false
  end.

Inductive result (T : Type) :=
  | Ok (x : T)
  | Err (e : error).
Arguments Ok {T} x.
Arguments Err {T} e.

Definition is_ok {T} (r : result T) : bool :=
  match r with Ok _ => true | Err _ => false end.

(** [json.Marshal] and [json.Unmarshal] at the Go type [T]. *)
Class JSON (T : Type) := {
  marshal : T → option string;
  unmarshal : string → option T
}.

(** [json.RawMessage]: the bytes themselves. *)
Definition JSON_RawMessage : JSON string :=
  {| marshal := Some; unmarshal := Some |}.

(** [json.Valid]: whether the bytes are a JSON text. [json.Marshal] fails
    on a [json.RawMessage] whose bytes are not one. *)
Class Valid := json_Valid : string → bool.

(** * The key-value store *)

(** What the store hands out: the persisted pairs, and for each read-write
    transaction still to come whether the store is going to reject it
    ([true]); past the end of the list every transaction commits. *)
Record DB := mkDB {
  kv : gmap string string;
  faults : list bool
}.

Record BadgerService := mkService {
  db : DB;
  counters : gmap string Z
}.

(** ** Transactions *)

(** [txn.Get]. *)
Definition txn_get (key : string) (m : gmap string string) : result string :=
  match m !! key with
  | Some val => Ok val
  | None => Err ErrKeyNotFound
  end.

(** [txn.Set]. *)
Definition txn_set (key val : string) (m : gmap string string)
  : gmap string string := <[key := val]> m.

(** The iterator of a transaction: every pair, in ascending key order. *)
Definition key_le (a b : string * string) : Prop := String.le a.1 b.1.

#[global] Instance key_le_dec : RelDecision key_le.
Proof. intros a b. unfold key_le. apply _. Defined.

Definition txn_iterator (m : gmap string string) : list (string * string) :=
  merge_sort key_le (map_to_list m).

(** [it.Seek(prefix)]: skip the keys below [prefix]. *)
Fixpoint seek (prefix : string) (it : list (string * string))
  : list (string * string) :=
  match it with
  | [] => []
  | kvp :: it' =>
      if String.ltb kvp.1 prefix then seek prefix it' else kvp :: it'
  end.

(** The loop [for ...; it.ValidForPrefix(prefix); it.Next()]. *)
Fixpoint while_valid_for_prefix (prefix : string) (it : list (string * string))
  : list (string * string) :=
  match it with
  | [] => []
  | kvp :: it' =>
      if String.prefix prefix kvp.1
      then kvp :: while_valid_for_prefix prefix it'
      else []
  end.

Definition txn_scan (prefix : string) (m : gmap string string)
  : list (string * string) :=
  while_valid_for_prefix prefix (seek prefix (txn_iterator m)).

(** ** The state monad of the service *)

Definition M (A : Type) : Type := BadgerService → A * BadgerService.

#[global] Instance M_ret : MRet M := λ A x s, (x, s).
#[global] Instance M_bind : MBind M :=
  λ A B k c s, let (x, s') := c s in k x s'.

(** [for _, x := range xs { acc = body(acc, x) }]. *)
Fixpoint forM {A B} (body : B → A → M B) (acc : B) (xs : list A) : M B :=
  match xs with
  | [] => mret acc
  | x :: xs' => acc' ← body acc x; forM body acc' xs'
  end.

(** [s.db.View(fn)]: [fn] reads a snapshot; nothing is written. *)
Definition View {A} (fn : gmap string string → A) : M A :=
  λ s, (fn (kv (db s)), s).

(** The end of a read-write transaction whose writes give [kv']: the store
    takes them, or rejects the transaction and keeps what it had. *)
Definition commit (kv' : gmap string string) (d : DB) : option error * DB :=
  match faults d with
  | true :: fs => (Some ErrTxn, mkDB (kv d) fs)
  | false :: fs => (None, mkDB kv' fs)
  | [] => (None, mkDB kv' [])
  end.

(** [s.db.Update(fn)]: the writes of [fn] are committed when [fn] returns
    no error; otherwise the transaction is discarded. *)
Definition Update (fn : gmap string string → option error * gmap string string)
  : M (option error) :=
  λ s,
    let (err, kv') := fn (kv (db s)) in
    match err with
    | Some e => (Some e, s)
    | None =>
        let (cerr, d') := commit kv' (db s) in
        (cerr, mkService d' (counters s))
    end.

(** * The identifier allocator *)

Definition entities : list string :=
  ["users"; "companies"; "orders"; "products"; "categories"].

(** [fmt.Sprintf("counter:%s", entity)]. *)
Definition counter_key (entity : string) : string := "counter:" +:+ entity.

(** [fmt.Sprintf("%s:%d", entity, id)]. *)
Definition entity_key (entity : string) (id : Z) : string :=
  entity +:+ ":" +:+ pretty id.

(** [fmt.Sprintf("%s:", entity)]. *)
Definition entity_prefix (entity : string) : string := entity +:+ ":".

(** [s.counters[entity]]: a missing key reads as zero. *)
Definition counter_of (s : BadgerService) (entity : string) : Z :=
  default 0 (counters s !! entity).

Definition read_counter (entity : string) : M Z :=
  λ s, (counter_of s entity, s).

Definition set_counter (entity : string) (c : Z) : M unit :=
  λ s, (tt, mkService (db s) (<[entity := c]> (counters s))).

Section Service.
Context {JSON_int64 : JSON Z}.

Definition initCounters : M unit :=
  forM (λ _ entity,
    r ← View (txn_get (counter_key entity));
    match r with
    | Err _ => set_counter entity 0
    | Ok val =>
        (* var counter int64; json.Unmarshal(val, &counter) *)
        set_counter entity (default 0 (unmarshal val))
    end) tt entities.

Definition NewBadgerService (d : DB) : BadgerService :=
  snd (initCounters (mkService d ∅)).

Definition getNextID (entity : string) : M Z :=
  (* s.counters[entity]++ *)
  c0 ← read_counter entity;
  set_counter entity (Int64.incr c0);;
  (* s.db.Update(...): the error it returns is dropped *)
  c ← read_counter entity;
  _ ← Update (λ m,
        (* data, _ := json.Marshal(s.counters[entity]) *)
        let data := default "" (marshal c) in
        (None, txn_set (counter_key entity) data m));
  read_counter entity.

(** ** The generic record operations *)

Definition create {T} {J : JSON T} (entity : string) (id : Z) (data : T)
  : M (option error) :=
  Update (λ m,
    match marshal data with
    | None => (Some ErrMarshal, m)
    | Some jsonData => (None, txn_set (entity_key entity id) jsonData m)
    end).

Definition get {T} {J : JSON T} (entity : string) (id : Z) : M (result T) :=
  View (λ m,
    match txn_get (entity_key entity id) m with
    | Err e => Err e
    | Ok val =>
        match unmarshal val with
        | Some x => Ok x
        | None => Err ErrUnmarshal
        end
    end).

(** ** The values that [list] keeps *)

(** [badger.DefaultIteratorOptions.PrefetchSize]. *)
Definition PrefetchSize : nat := 100.

(** [item.Value] lends its callback the bytes of the value, good until the
    iterator moves on. [get] decodes them inside the callback; [list]
    keeps the slices and reads them when the loop is over. The iterator
    has no [opts.Prefix]: once seeked it fetches the values of the next
    [PrefetchSize] items, whatever their keys, and from then on every
    [it.Next()] hands the item it leaves, with its buffer, to the first
    item not yet fetched, whose value a goroutine copies into the buffer
    when it fits. What a kept slice holds in the end is a matter of the
    sizes of the values and of the scheduling of these goroutines: a
    [Lent] is one outcome, the bytes of the [i]-th kept slice given the
    prefix, the pairs from the seek point on and the bytes lent. *)
Definition Lent : Type :=
  string → list (string * string) → nat → string → string.

(** The kept slices when [json.Marshal] reads them: with no more than
    [PrefetchSize] pairs from the seek point on, every item is fetched
    once and no buffer is handed on. *)
Definition kept (lent : Lent) (prefix : string)
    (reach : list (string * string)) (vals : list string) : list string :=
  if decide (length reach ≤ PrefetchSize)%nat then vals
  else imap (lent prefix reach) vals.

(** [json.Unmarshal] of the array into the slice, item by item: an item of
    the wrong shape fails the decoding. *)
Fixpoint unmarshal_items {T} {J : JSON T} (items : list string)
  : option (list T) :=
  match items with
  | [] => Some []
  | val :: items' =>
      match unmarshal val, unmarshal_items items' with
      | Some x, Some xs => Some (x :: xs)
      | _, _ => None
      end
  end.

(** The tail of [list]: [json.Marshal(items)], which fails when an item is
    not JSON, then [json.Unmarshal] of the array. *)
Definition decode_items {T} {J : JSON T} {V : Valid} (items : list string)
  : result (list T) :=
  if forallb json_Valid items then
    match unmarshal_items items with
    | Some xs => Ok xs
    | None => Err ErrUnmarshal
    end
  else Err ErrMarshal.

Definition list_ {T} {J : JSON T} {V : Valid} (lent : Lent) (entity : string)
  : M (result (list T)) :=
  View (λ m,
    let prefix := entity_prefix entity in
    (* it.Seek(prefix) *)
    let reach := seek prefix (txn_iterator m) in
    (* items = append(items, json.RawMessage(val)) *)
    let items :=
      kept lent prefix reach (while_valid_for_prefix prefix reach).*2 in
    decode_items items).
End Service.

(** * Joins and aggregations *)

(** Every query is one call of a method: [lent] is what the listings of
    that call find in the slices they kept. *)
Section Queries.
Context {JSON_User : JSON User} {JSON_Company : JSON Company}
        {JSON_Order : JSON Order} {JSON_Product : JSON Product}
        {JSON_Category : JSON Category} {V : Valid}.
Variable lent : Lent.

(** ** 1. Users with their companies *)

Definition GetUsersWithCompanies : M (list UserWithCompany * option error) :=
  r ← list_ (T := User) lent "users";
  match r with
  | Err err => mret ([], Some err)
  | Ok users =>
      results ← forM (λ results user,
        c ← get (T := Company) "companies" (user_CompanyID user);
        match c with
        | Err _ => mret results (* continue *)
        | Ok company => mret (results ++ [mkUserWithCompany user company])
        end) [] users;
      mret (results, None)
  end.

(** ** 2. Orders with user, product and category *)

Definition GetOrdersWithDetails : M (list OrderWithDetails * option error) :=
  r ← list_ (T := Order) lent "orders";
  match r with
  | Err err => mret ([], Some err)
  | Ok orders =>
      results ← forM (λ results order,
        u ← get (T := User) "users" (order_UserID order);
        match u with
        | Err _ => mret results
        | Ok user =>
            p ← get (T := Product) "products" (order_ProductID order);
            match p with
            | Err _ => mret results
            | Ok product =>
                c ← get (T := Category) "categories"
                      (product_CategoryID product);
                match c with
                | Err _ => mret results
                | Ok category =>
                    mret (results ++
                          [mkOrderWithDetails order user product category])
                end
            end
        end) [] orders;
      mret (results, None)
  end.

(** ** 3. Company statistics *)

(** [m[k] = append(m[k], x)] on a [map[int64][]T]. *)
Definition map_append {T} (k : Z) (x : T) (m : gmap Z (list T))
  : gmap Z (list T) := <[k := default [] (m !! k) ++ [x]]> m.

Definition usersByCompany (users : list User) : gmap Z (list User) :=
  foldl (λ m user, map_append (user_CompanyID user) user m) ∅ users.

(** The inner loop over [users], left at the first user of the order. *)
Fixpoint attribute_order (order : Order) (users : list User)
    (m : gmap Z (list Order)) : gmap Z (list Order) :=
  match users with
  | [] => m
  | user :: users' =>
      if user_ID user =? order_UserID order
      then map_append (user_CompanyID user) order m (* break *)
      else attribute_order order users' m
  end.

Definition ordersByCompany (users : list User) (orders : list Order)
  : gmap Z (list Order) :=
  foldl (λ m order, attribute_order order users m) ∅ orders.

Definition company_stats (users : list User) (orders : list Order)
    (company : Company) : CompanyStats :=
  let userCount :=
    Z.of_nat (length (default [] (usersByCompany users !! company_ID company))) in
  let companyOrders :=
    default [] (ordersByCompany users orders !! company_ID company) in
  let orderCount := Z.of_nat (length companyOrders) in
  let totalRevenue :=
    foldl (λ total order, Float64.add total (order_Amount order))
          Float64.zero companyOrders in
  mkCompanyStats company userCount orderCount totalRevenue.

Definition GetCompanyStats : M (list CompanyStats * option error) :=
  rc ← list_ (T := Company) lent "companies";
  match rc with
  | Err err => mret ([], Some err)
  | Ok companies =>
      ru ← list_ (T := User) lent "users";
      match ru with
      | Err err => mret ([], Some err)
      | Ok users =>
          ro ← list_ (T := Order) lent "orders";
          match ro with
          | Err err => mret ([], Some err)
          | Ok orders =>
              mret (foldl (λ results company,
                      results ++ [company_stats users orders company])
                    [] companies, None)
          end
      end
  end.

(** ** 4. Orders of one user, with product and category *)

Definition GetUserOrdersWithProducts (userID : Z)
  : M (list OrderWithDetails * option error) :=
  r ← list_ (T := Order) lent "orders";
  match r with
  | Err err => mret ([], Some err)
  | Ok orders =>
      u ← get (T := User) "users" userID;
      match u with
      | Err err => mret ([], Some (ErrWrap "user not found" err))
      | Ok user =>
          results ← forM (λ results order,
            if negb (order_UserID order =? userID) then mret results
            else
              p ← get (T := Product) "products" (order_ProductID order);
              match p with
              | Err _ => mret results
              | Ok product =>
                  c ← get (T := Category) "categories"
                        (product_CategoryID product);
                  match c with
                  | Err _ => mret results
                  | Ok category =>
                      mret (results ++
                            [mkOrderWithDetails order user product category])
                  end
              end) [] orders;
          mret (results, None)
      end
  end.

(** ** 5. Top selling products by category *)

(** Two things of this query are left open by Go: the order in which
    [range] visits a map, and the permutation [sort.Slice] picks among
    the sorted ones. Both are parameters. *)
Section TopSelling.
Variable map_range : gmap Z ProductStats → list (Z * ProductStats).
Variable sort_Slice :
  (ProductStats → ProductStats → bool) → list ProductStats → list ProductStats.

Definition zeroProduct : Product :=
  mkProduct 0 "" Float64.zero 0 0 "".
Definition zeroProductStats : ProductStats :=
  mkProductStats zeroProduct 0 Float64.zero.

Definition productMapOf (products : list Product) : gmap Z Product :=
  foldl (λ m product, <[product_ID product := product]> m) ∅ products.

Definition categoryMapOf (categories : list Category) : gmap Z Category :=
  foldl (λ m category, <[category_ID category := category]> m) ∅ categories.

(** One turn of the loop over the orders. *)
Definition add_order (productMap : gmap Z Product)
    (productStats : gmap Z ProductStats) (order : Order)
  : gmap Z ProductStats :=
  match productMap !! order_ProductID order with
  | None => productStats (* continue *)
  | Some product =>
      let stats :=
        default zeroProductStats (productStats !! product_ID product) in
      <[product_ID product :=
          mkProductStats product
            (ps_TotalOrders stats + 1)
            (Float64.add (ps_TotalRevenue stats) (order_Amount order))]>
        productStats
  end.

Definition productStatsOf (productMap : gmap Z Product)
    (orders : list Order) : gmap Z ProductStats :=
  foldl (add_order productMap) ∅ orders.

Definition categoryNameOf (categoryMap : gmap Z Category)
    (stats : ProductStats) : string :=
  category_Name
    (default zeroCategory
       (categoryMap !! product_CategoryID (ps_Product stats))).

Definition group_by_category (categoryMap : gmap Z Category)
    (productStats : gmap Z ProductStats) : gmap string (list ProductStats) :=
  foldl (λ result kstats,
    let stats := kstats.2 in
    let categoryName := categoryNameOf categoryMap stats in
    <[categoryName :=
        default [] (result !! categoryName) ++
        [mkProductStats (ps_Product stats) (ps_TotalOrders stats)
           (ps_TotalRevenue stats)]]> result)
    ∅ (map_range productStats).

(** The [less] function handed to [sort.Slice]. *)
Definition by_revenue_desc (a b : ProductStats) : bool :=
  Float64.gt (ps_TotalRevenue a) (ps_TotalRevenue b).

Definition top_selling (orders : list Order) (products : list Product)
    (categories : list Category) : gmap string (list ProductStats) :=
  let productMap := productMapOf products in
  let categoryMap := categoryMapOf categories in
  let productStats := productStatsOf productMap orders in
  sort_Slice by_revenue_desc <$> group_by_category categoryMap productStats.

Definition GetTopSellingProductsByCategory
  : M (gmap string (list ProductStats) * option error) :=
  ro ← list_ (T := Order) lent "orders";
  match ro with
  | Err err => mret (∅, Some err)
  | Ok orders =>
      rp ← list_ (T := Product) lent "products";
      match rp with
      | Err err => mret (∅, Some err)
      | Ok products =>
          rc ← list_ (T := Category) lent "categories";
          match rc with
          | Err err => mret (∅, Some err)
          | Ok categories =>
              mret (top_selling orders products categories, None)
          end
      end
  end.
End TopSelling.
End Queries.

(** * Entity-specific operations *)

(** A [Create...] method fills in the record behind its pointer and returns
    an error; here it returns the record as filled in, with the error.
    [now] is what [time.Now()] reads. *)
Section Creates.
Context {JSON_int64 : JSON Z}
        {JSON_User : JSON User} {JSON_Company : JSON Company}
        {JSON_Order : JSON Order} {JSON_Product : JSON Product}
        {JSON_Category : JSON Category}.

Definition CreateUser (now : Z) (user : User) : M (User * option error) :=
  id ← getNextID "users";
  let user :=
    mkUser id (user_Name user) (user_Email user) (user_CompanyID user) now in
  err ← create "users" (user_ID user) user;
  mret (user, err).

Definition CreateCompany (now : Z) (company : Company)
  : M (Company * option error) :=
  id ← getNextID "companies";
  let company :=
    mkCompany id (company_Name company) (company_Industry company) now in
  err ← create "companies" (company_ID company) company;
  mret (company, err).

Definition CreateOrder (now : Z) (order : Order) : M (Order * option error) :=
  id ← getNextID "orders";
  let order :=
    mkOrder id (order_UserID order) (order_ProductID order)
      (order_Quantity order) (order_Amount order) (order_Status order) now in
  err ← create "orders" (order_ID order) order;
  mret (order, err).

Definition CreateProduct (product : Product) : M (Product * option error) :=
  id ← getNextID "products";
  let product :=
    mkProduct id (product_Name product) (product_Price product)
      (product_CategoryID product) (product_CompanyID product)
      (product_Description product) in
  err ← create "products" (product_ID product) product;
  mret (product, err).

Definition CreateCategory (category : Category)
  : M (Category * option error) :=
  id ← getNextID "categories";
  let category := mkCategory id (category_Name category) in
  err ← create "categories" (category_ID category) category;
  mret (category, err).
End Creates.

(** * Histories of the service *)

(** The service has no method that deletes a record; a record disappears
    when its key is deleted in the store ([txn.Delete] in an update). *)
Definition delete_key (key : string) : M (option error) :=
  Update (λ m, (None, delete key m)).

Inductive op :=
  | OpNextID (entity : string)
  | OpCreate {T : Type} {J : JSON T} (entity : string) (id : Z) (data : T)
  | OpDelete (key : string).

Section Histories.
Context {JSON_int64 : JSON Z}.

(** One operation; an allocation reports the kind and the identifier. *)
Definition run_op (o : op) : M (option (string * Z)) :=
  match o with
  | OpNextID entity => id ← getNextID entity; mret (Some (entity, id))
  | OpCreate entity id data => _ ← create entity id data; mret None
  | OpDelete key => _ ← delete_key key; mret None
  end.

(** A history, with the allocations it made in call order. *)
Fixpoint run (h : list op) : M (list (string * Z)) :=
  match h with
  | [] => mret []
  | o :: h' =>
      r ← run_op o;
      rs ← run h';
      mret (match r with Some a => a :: rs | None => rs end)
  end.

(** The identifiers a history allocated for one kind, in call order. *)
Definition ids_of (entity : string) (allocs : list (string * Z)) : list Z :=
  (filter (λ a, a.1 = entity) allocs).*2.

(** [n] allocations of one kind in a row. *)
Definition allocations (entity : string) (n : nat) : list op :=
  replicate n (OpNextID entity).
End Histories.

(** The number of allocations of a kind in a history. *)
Fixpoint count_allocs (entity : string) (h : list op) : nat :=
  match h with
  | [] => 0
  | o :: h' =>
      match o with
      | OpNextID e =>
          if decide (e = entity) then S (count_allocs entity h')
          else count_allocs entity h'
      | _ => count_allocs entity h'
      end
  end.

(** The counter a new service reads back for a kind. *)
Definition persisted_counter {JSON_int64 : JSON Z} (d : DB) (entity : string)
  : Z :=
  match kv d !! counter_key entity with
  | Some val => default 0 (unmarshal val)
  | None => 0
  end.

(** * Sample data *)

Module Demo.
(** A decimal codec for [int64]. *)
Fixpoint parse_digits (acc : Z) (s : string) : option Z :=
  match s with
  | EmptyString => Some acc
  | String c s' =>
      match Ascii.is_nat c with
      | Some n => parse_digits (10 * acc + Z.of_nat n) s'
      | None => None
      end
  end.

Definition parse_int (s : string) : option Z :=
  let in_range z :=
    if bool_decide (Int64.min_int ≤ z ≤ Int64.max_int) then Some z else None in
  match s with
  | EmptyString => None
  | String "-" (String c s') => z ← parse_digits 0 (String c s'); in_range (- z)
  | _ => z ← parse_digits 0 s; in_range z
  end.

Definition JSON_int64 : JSON Z :=
  {| marshal := λ z, Some (pretty z); unmarshal := parse_int |}.

(** An empty store on which every transaction commits. *)
Definition empty_db : DB := mkDB ∅ [].

(** A store that rejects the next transaction, and one that takes it. *)
Definition failing_service : BadgerService := mkService (mkDB ∅ [true]) ∅.
Definition working_service : BadgerService := mkService (mkDB ∅ [false]) ∅.

(** Two records created under the identifiers 2 and 10. *)
Definition two_and_ten : list op :=
  [OpCreate (J := JSON_RawMessage) "users" 2 "[2]";
   OpCreate (J := JSON_RawMessage) "users" 10 "[10]"].

(** A decoder given by the table of the documents it knows; it encodes
    nothing. *)
Definition fixture {T} (table : list (string * T)) : JSON T :=
  {| marshal := λ _, None;
     unmarshal := λ val, (list_to_map table : gmap string T) !! val |}.

Definition companyA : Company := mkCompany 1 "A" "Technology" 0.
Definition companyB : Company := mkCompany 2 "B" "Retail" 0.

Definition u1 : User := mkUser 1 "u1" "u1@example.com" 1 0.
Definition u2 : User := mkUser 2 "u2" "u2@example.com" 2 0.
(** A user of a company that does not exist. *)
Definition u3 : User := mkUser 3 "u3" "u3@example.com" 9 0.

Definition o1 : Order := mkOrder 1 1 1 1 (Float64.of_Z 10) "completed" 0.
Definition o2 : Order := mkOrder 2 1 2 1 (Float64.of_Z 5) "pending" 0.
(** An order of a product that does not exist. *)
Definition o3 : Order := mkOrder 3 2 3 1 (Float64.of_Z 7) "completed" 0.
Definition o4 : Order := mkOrder 4 3 4 1 (Float64.of_Z 20) "completed" 0.

Definition p1 : Product := mkProduct 1 "Laptop" (Float64.of_Z 999) 1 1 "".
(** A product of a category that does not exist. *)
Definition p2 : Product := mkProduct 2 "Book" (Float64.of_Z 49) 7 1 "".
Definition p4 : Product := mkProduct 4 "Phone" (Float64.of_Z 499) 1 1 "".

Definition c1 : Category := mkCategory 1 "Electronics".

Definition JSON_Company : JSON Company := fixture [("A", companyA); ("B", companyB)].
Definition JSON_User : JSON User := fixture [("u1", u1); ("u2", u2); ("u3", u3)].
Definition JSON_Order : JSON Order :=
  fixture [("o1", o1); ("o2", o2); ("o3", o3); ("o4", o4)].
Definition JSON_Product : JSON Product :=
  fixture [("p1", p1); ("p2", p2); ("p4", p4)].
Definition JSON_Category : JSON Category := fixture [("c1", c1)].

Definition shop : BadgerService :=
  mkService
    (mkDB (list_to_map
             [("companies:1", "A"); ("companies:2", "B");
              ("users:1", "u1"); ("users:2", "u2"); ("users:3", "u3");
              ("orders:1", "o1"); ("orders:2", "o2"); ("orders:3", "o3");
              ("orders:4", "o4");
              ("products:1", "p1"); ("products:2", "p2"); ("products:4", "p4");
              ("categories:1", "c1");
              ("counter:users", "3"); ("counter:orders", "4")]) [])
    ∅.

(** A store that has no user, and whose only order is a JSON array where
    an order object is expected. *)
Definition broken_shop : BadgerService :=
  mkService (mkDB (list_to_map [("orders:1", "[1]")]) []) ∅.

(** A validity that takes every text: the documents of [shop] are
    names. *)
Definition any_text : Valid := λ _, true.

(** Documents that are JSON: a number, or numbers in brackets. *)
Fixpoint parse_items (cur : string) (s : string) : option (list Z) :=
  match s with
  | EmptyString => None
  | String c s' =>
      if Ascii.eqb c "]" then
        match s' with
        | EmptyString => n ← parse_int cur; Some [n]
        | _ => None
        end
      else if Ascii.eqb c "," then
        n ← parse_int cur; ns ← parse_items "" s'; Some (n :: ns)
      else parse_items (cur +:+ String c "") s'
  end.

Definition parse_numbers (s : string) : option (list Z) :=
  match s with
  | String "[" rest => parse_items "" rest
  | _ => None
  end.

Definition numbers : Valid :=
  λ val, bool_decide (is_Some (parse_int val) ∨ is_Some (parse_numbers val)).

(** Codecs that keep the identifier of a record, and of a user the
    company as well. *)
Definition brackets (id : Z) : string := "[" +:+ pretty id +:+ "]".

Definition JSON_user_pair : JSON User :=
  {| marshal := λ user,
       Some ("[" +:+ pretty (user_ID user) +:+ "," +:+
             pretty (user_CompanyID user) +:+ "]");
     unmarshal := λ val,
       match parse_numbers val with
       | Some [id; company] => Some (mkUser id "" "" company 0)
       | _ => None
       end |}.

Definition JSON_company_id : JSON Company :=
  {| marshal := λ company, Some (brackets (company_ID company));
     unmarshal := λ val,
       match parse_numbers val with
       | Some [id] => Some (mkCompany id "" "" 0)
       | _ => None
       end |}.

Definition JSON_category_id : JSON Category :=
  {| marshal := λ category, Some (brackets (category_ID category));
     unmarshal := λ val,
       match parse_numbers val with
       | Some [id] => Some (mkCategory id "")
       | _ => None
       end |}.

Definition JSON_no_order : JSON Order :=
  {| marshal := λ _, None; unmarshal := λ _, None |}.

(** One way the buffers are handed on, every goroutine done before the
    slices are read: the value of item [i + PrefetchSize] is copied into
    the buffer of item [i] when it is no longer than that buffer, and the
    kept slice then reads the new bytes followed by what is left of the
    old ones. *)
Definition handed_on : Lent :=
  λ _ reach i val,
    match reach !! (i + PrefetchSize)%nat with
    | Some (_, val') =>
        let n := String.length val' in
        if decide (n ≤ String.length val)%nat
        then val' +:+ substring n (String.length val - n) val
        else val
    | None => val
    end.

(** Two companies and 102 users, created in turn on an empty store: user
    10 is of company 2, the others of company 1. *)
Definition crowd : BadgerService :=
  let create_company _ (_ : Z) :=
    _ ← CreateCompany (JSON_int64 := JSON_int64)
          (JSON_Company := JSON_company_id) 0 (mkCompany 0 "" "" 0);
    mret tt in
  let create_user _ (n : Z) :=
    _ ← CreateUser (JSON_int64 := JSON_int64) (JSON_User := JSON_user_pair) 0
          (mkUser 0 "" "" (if n =? 10 then 2 else 1) 0);
    mret tt in
  (forM create_user tt (seqZ 1 102)
     (forM create_company tt (seqZ 1 2)
        (NewBadgerService (JSON_int64 := JSON_int64) empty_db)).2).2.

(** 99 categories, created in turn on an empty store. *)
Definition catalogue : BadgerService :=
  let create_category _ (_ : Z) :=
    _ ← CreateCategory (JSON_int64 := JSON_int64)
          (JSON_Category := JSON_category_id) (mkCategory 0 "");
    mret tt in
  (forM create_category tt (seqZ 1 99)
     (NewBadgerService (JSON_int64 := JSON_int64) empty_db)).2.

(** An insertion sort, as one [sort.Slice]. *)
Fixpoint insert_by {A} (less : A → A → bool) (x : A) (l : list A) : list A :=
  match l with
  | [] => [x]
  | y :: l' => if less x y then x :: l else y :: insert_by less x l'
  end.

Definition insertion_sort {A} (less : A → A → bool) (l : list A) : list A :=
  foldr (insert_by less) [] l.
End Demo.

(** * Notions used to state the properties *)

Section Notions.
Context {JSON_Product : JSON Product} {JSON_Category : JSON Category}.

(** What the loop of [GetUserOrdersWithProducts] makes of one order. *)
Definition user_order_row (s : BadgerService) (userID : Z) (user : User)
    (order : Order) : option OrderWithDetails :=
  if negb (order_UserID order =? userID) then None
  else
    match (get (T := Product) "products" (order_ProductID order) s).1 with
    | Err _ => None
    | Ok product =>
        match (get (T := Category) "categories"
                 (product_CategoryID product) s).1 with
        | Err _ => None
        | Ok category => Some (mkOrderWithDetails order user product category)
        end
    end.

End Notions.

(** The company an order is attributed to: that of the first listed user
    who carries the user identifier of the order. *)
Definition order_company (users : list User) (order : Order) : option Z :=
  user_CompanyID <$>
    head (filter (λ user, user_ID user = order_UserID order) users).

Definition orders_of_company (users : list User) (orders : list Order)
    (company : Company) : list Order :=
  filter (λ order, order_company users order = Some (company_ID company)) orders.

Definition users_of_company (users : list User) (company : Company)
  : list User :=
  filter (λ user, user_CompanyID user = company_ID company) users.

(** ** What is asked of the library functions left open *)

(** [less] is a strict weak ordering on the elements of [l]: irreflexive,
    transitive, and with a transitive "not less". *)
Definition strict_weak_on {A} (less : A → A → bool) (l : list A) : Prop :=
  (∀ x, x ∈ l → less x x = false)
  ∧ (∀ x y z, x ∈ l → y ∈ l → z ∈ l →
       less x y = true → less y z = true → less x z = true)
  ∧ (∀ x y z, x ∈ l → y ∈ l → z ∈ l →
       less x y = false → less y z = false → less x z = false).

(** Nothing in [l] is followed by something less. *)
Definition sorted_by {A} (less : A → A → bool) (l : list A) : Prop :=
  StronglySorted (λ x y, less y x = false) l.

(** [sort.Slice] permutes the slice, into a sorted one when [less] is a
    strict weak ordering on it. *)
Definition sort_Slice_spec {A}
    (sort_Slice : (A → A → bool) → list A → list A) : Prop :=
  ∀ less l,
    sort_Slice less l ≡ₚ l
    ∧ (strict_weak_on less l → sorted_by less (sort_Slice less l)).

(** [range] visits every entry of the map once, in some order. *)
Definition map_range_spec {V} (map_range : gmap Z V → list (Z * V)) : Prop :=
  ∀ m, map_range m ≡ₚ map_to_list m.


(** ** Products and their orders *)

Definition orders_of_product (pid : Z) (orders : list Order) : list Order :=
  filter (λ order, order_ProductID order = pid) orders.

(** The entry of a product: the number of its orders and the sum of their
    amounts, accumulated in listing order. *)
Definition product_entry (orders : list Order) (product : Product)
  : ProductStats :=
  mkProductStats product
    (Z.of_nat (length (orders_of_product (product_ID product) orders)))
    (Float64.sum
       (order_Amount <$> orders_of_product (product_ID product) orders)).

Definition category_name_or_empty (categoryMap : gmap Z Category)
    (product : Product) : string :=
  match categoryMap !! product_CategoryID product with
  | Some category => category_Name category
  | None => ""
  end.




(** The pairs a scan keeps, and the strict order it visits them in. *)
Definition has_prefix (prefix : string) (kvp : string * string) : Prop :=
  String.prefix prefix kvp.1 = true.

Definition key_lt (a b : string * string) : Prop :=
  String.ltb a.1 b.1 = true.

#[global] Instance has_prefix_dec p : ∀ kvp, Decision (has_prefix p kvp).
Proof. intros kvp. unfold has_prefix. apply _. Defined.

(** ** Further notions *)

(** Encoding [x] and decoding the result gives [x] back. *)
Definition round_trips {T} (J : JSON T) (x : T) : Prop :=
  ∀ val, marshal x = Some val → unmarshal val = Some x.

Section MoreNotions.
Context {JSON_User : JSON User} {JSON_Product : JSON Product}
        {JSON_Category : JSON Category}.

(** What the loop of [GetOrdersWithDetails] makes of one order. *)
Definition order_row (s : BadgerService) (order : Order)
  : option OrderWithDetails :=
  match (get (T := User) "users" (order_UserID order) s).1 with
  | Err _ => None
  | Ok user =>
      match (get (T := Product) "products" (order_ProductID order) s).1 with
      | Err _ => None
      | Ok product =>
          match (get (T := Category) "categories"
                   (product_CategoryID product) s).1 with
          | Err _ => None
          | Ok category =>
              Some (mkOrderWithDetails order user product category)
          end
      end
  end.
End MoreNotions.

(** No more than [PrefetchSize] keys of the store are at or after the
    prefix of the kind in byte order: a listing of the kind stays within
    what the iterator fetches at once. *)
Definition within_prefetch (entity : string) (m : gmap string string) : Prop :=
  (length (seek (entity_prefix entity) (txn_iterator m)) ≤ PrefetchSize)%nat.

(** The pairs of a store whose key extends a prefix, in no particular
    order. *)
Definition pairs_under (prefix : string) (m : gmap string string)
  : list (string * string) :=
  filter (has_prefix prefix) (map_to_list m).

(** A computation that only reads the service. *)
Definition read_only {A} (c : M A) : Prop := ∀ s, (c s).2 = s.

(* ================================================================== *)
(** * Properties *)
(* ================================================================== *)

(** ** Machine integers *)

Lemma wrap64_small z :
  Int64.min_int ≤ z ≤ Int64.max_int → Int64.wrap64 z = z.
Proof.
  unfold Int64.wrap64, Int64.min_int, Int64.max_int. intros Hz.
  rewrite Z.mod_small by lia. lia.
Qed.

Lemma incr_small x : 0 ≤ x < Int64.max_int → Int64.incr x = x + 1.
Proof.
  unfold Int64.incr. intros Hx. apply wrap64_small.
  unfold Int64.min_int, Int64.max_int in *. lia.
Qed.

Lemma incr_max : Int64.incr Int64.max_int = Int64.min_int.
Proof. reflexivity. Qed.

(** ** The state monad *)

Lemma bind_apply {A B} (c : M A) (k : A → M B) s :
  (c ≫= k) s = k (c s).1 (c s).2.
Proof. unfold mbind, M_bind. by destruct (c s). Qed.

Lemma ret_apply {A} (x : A) s : mret (M := M) x s = (x, s).
Proof. reflexivity. Qed.

Lemma read_only_ret {A} (x : A) : read_only (mret x).
Proof. by intros s. Qed.

Lemma read_only_bind {A B} (c : M A) (k : A → M B) :
  read_only c → (∀ x, read_only (k x)) → read_only (c ≫= k).
Proof.
  intros Hc Hk s. rewrite bind_apply, Hk. apply Hc.
Qed.

Lemma read_only_View {A} (fn : gmap string string → A) : read_only (View fn).
Proof. by intros s. Qed.

Lemma read_only_forM {A B} (body : B → A → M B) acc xs :
  (∀ b x, read_only (body b x)) → read_only (forM body acc xs).
Proof.
  intros Hbody. revert acc.
  induction xs as [|x xs IH]; intros acc; simpl.
  - apply read_only_ret.
  - apply read_only_bind; [apply Hbody | intros b; apply IH].
Qed.

(** A loop whose body only reads is a fold of the values it computes. *)
Lemma forM_read_only {A B} (body : B → A → M B) acc xs s :
  (∀ b x, read_only (body b x)) →
  forM body acc xs s = (foldl (λ b x, (body b x s).1) acc xs, s).
Proof.
  intros Hbody. revert acc.
  induction xs as [|x xs IH]; intros acc; simpl; [done|].
  rewrite bind_apply, (Hbody acc x s). apply IH.
Qed.

(** ** The allocator *)

Section Allocator.
Context {JSON_int64 : JSON Z}.

(** What one allocation does to the service. *)
Lemma getNextID_eq entity s :
  getNextID entity s =
    let c := Int64.incr (counter_of s entity) in
    (c, mkService
          (commit (txn_set (counter_key entity) (default "" (marshal c))
                     (kv (db s))) (db s)).2
          (<[entity := c]> (counters s))).
Proof.
  unfold getNextID. rewrite !bind_apply. simpl.
  unfold read_counter, set_counter, Update, counter_of. simpl.
  rewrite lookup_insert_eq. simpl.
  destruct (commit _ _) as [cerr d']. simpl.
  by rewrite lookup_insert_eq.
Qed.

Lemma getNextID_result entity s :
  (getNextID entity s).1 = Int64.incr (counter_of s entity).
Proof. by rewrite getNextID_eq. Qed.

Lemma getNextID_counter entity e s :
  counter_of (getNextID entity s).2 e =
    if decide (entity = e) then Int64.incr (counter_of s entity)
    else counter_of s e.
Proof.
  rewrite getNextID_eq. unfold counter_of at 1. simpl.
  rewrite lookup_insert. by destruct (decide (entity = e)).
Qed.

Lemma Update_counters fn s : counters (Update fn s).2 = counters s.
Proof.
  unfold Update. destruct (fn _) as [[e|] kv']; [done|].
  by destruct (commit _ _).
Qed.

(** Only an allocation touches a counter. *)
Lemma run_op_counter o e s :
  counter_of (run_op o s).2 e =
    match o with
    | OpNextID entity =>
        if decide (entity = e) then Int64.incr (counter_of s e)
        else counter_of s e
    | _ => counter_of s e
    end.
Proof.
  destruct o as [entity|T J entity id data|key]; simpl;
    rewrite bind_apply; simpl.
  - rewrite getNextID_counter. by destruct (decide (entity = e)) as [->|].
  - unfold counter_of, create. by rewrite Update_counters.
  - unfold counter_of, delete_key. by rewrite Update_counters.
Qed.

Lemma run_op_result o s :
  (run_op o s).1 =
    match o with
    | OpNextID entity => Some (entity, Int64.incr (counter_of s entity))
    | _ => None
    end.
Proof.
  destruct o; simpl; rewrite bind_apply; simpl; [|done..].
  by rewrite getNextID_result.
Qed.

Lemma run_cons o h s :
  run (o :: h) s =
    (match (run_op o s).1 with
     | Some a => a :: (run h (run_op o s).2).1
     | None => (run h (run_op o s).2).1
     end, (run h (run_op o s).2).2).
Proof. simpl. rewrite !bind_apply. reflexivity. Qed.

Lemma count_allocs_cons entity o h :
  count_allocs entity (o :: h) =
    match o with
    | OpNextID e => if decide (e = entity) then S (count_allocs entity h)
                    else count_allocs entity h
    | _ => count_allocs entity h
    end.
Proof. by destruct o. Qed.

(** Starting from a counter [c], a history with [k] allocations of the
    kind, none of which overflows, hands out [c+1 .. c+k] in call order
    and leaves the counter at [c+k]. *)
Lemma run_ids entity h : ∀ s,
  0 ≤ counter_of s entity →
  counter_of s entity + Z.of_nat (count_allocs entity h) ≤ Int64.max_int →
  ids_of entity (run h s).1 =
    (λ i, counter_of s entity + Z.of_nat i) <$> seq 1 (count_allocs entity h)
  ∧ counter_of (run h s).2 entity =
      counter_of s entity + Z.of_nat (count_allocs entity h).
Proof.
  induction h as [|o h IH]; intros s Hc Hmax.
  { simpl. split; [done|]. lia. }
  rewrite run_cons, run_op_result.
  pose proof (run_op_counter o entity s) as Hcnt.
  specialize (IH (run_op o s).2). rewrite Hcnt in IH. clear Hcnt.
  destruct o as [e|T J e id data|key]; cbn [count_allocs fst snd] in *.
  - destruct (decide (e = entity)) as [->|Hne].
    + rewrite incr_small in IH |- * by lia.
      destruct IH as [IH1 IH2]; [lia..|].
      split; [|lia].
      unfold ids_of in *. rewrite filter_cons_True by done.
      rewrite fmap_cons. cbn [seq fmap list_fmap snd].
      f_equal; [lia..|]. rewrite IH1.
      rewrite <-(fmap_S_seq 1), <-list_fmap_compose.
      apply list_fmap_ext. intros _ i _. simpl. lia.
    + destruct IH as [IH1 IH2]; [lia..|].
      split; [|lia].
      unfold ids_of in *. by rewrite filter_cons_False by done.
  - destruct IH as [IH1 IH2]; [lia..|]. by split.
  - destruct IH as [IH1 IH2]; [lia..|]. by split.
Qed.
End Allocator.

Section NewService.
Context {JSON_int64 : JSON Z}.

Lemma init_loop (es : list string) : ∀ s,
  let s' := (forM (λ _ entity,
               r ← View (txn_get (counter_key entity));
               match r with
               | Err _ => set_counter entity 0
               | Ok val => set_counter entity (default 0 (unmarshal val))
               end) tt es s).2 in
  db s' = db s ∧
  ∀ e, counters s' !! e =
         if decide (e ∈ es) then Some (persisted_counter (db s) e)
         else counters s !! e.
Proof.
  induction es as [|e0 es IH]; intros s; cbv zeta; cbn [forM].
  { split; [done|]. intros e. by rewrite decide_False by apply not_elem_of_nil. }
  rewrite !bind_apply. cbn [fst snd].
  match goal with
  | |- context [forM _ ?a es ?s1] => set (s1' := s1); destruct a
  end.
  destruct (IH s1') as [Hdb Hcs]. simpl in Hdb, Hcs.
  assert (db s1' = db s ∧
          counters s1' = <[e0 := persisted_counter (db s) e0]> (counters s))
    as [Hdb1 Hcs1].
  { unfold s1', persisted_counter, View, txn_get. cbn [fst snd].
    by destruct (kv (db s) !! counter_key e0). }
  split; [congruence|]. intros e. rewrite Hcs, Hdb1, Hcs1.
  destruct (decide (e ∈ es)) as [Hin|Hnin].
  - by rewrite decide_True by (by apply elem_of_cons; right).
  - rewrite lookup_insert. destruct (decide (e0 = e)) as [->|Hne].
    + by rewrite decide_True by (by apply elem_of_cons; left).
    + rewrite decide_False; [done|].
      intros [?|?]%elem_of_cons; congruence.
Qed.

Lemma NewBadgerService_db d : db (NewBadgerService d) = d.
Proof. unfold NewBadgerService, initCounters. by apply init_loop. Qed.

(** A kind with no persisted counter starts at zero. *)
Lemma NewBadgerService_fresh d entity :
  kv d !! counter_key entity = None →
  counter_of (NewBadgerService d) entity = 0.
Proof.
  intros Hnone. unfold counter_of, NewBadgerService, initCounters.
  destruct (init_loop entities (mkService d ∅)) as [_ Hcs].
  simpl in Hcs. rewrite Hcs.
  destruct (decide (entity ∈ entities)); simpl; [|done].
  unfold persisted_counter. simpl. by rewrite Hnone.
Qed.

Lemma run_app h1 h2 s :
  (run (h1 ++ h2) s).1 = (run h1 s).1 ++ (run h2 (run h1 s).2).1
  ∧ (run (h1 ++ h2) s).2 = (run h2 (run h1 s).2).2.
Proof.
  revert s. induction h1 as [|o h1 IH]; intros s; [done|].
  rewrite <-app_comm_cons, !run_cons. cbn [fst snd].
  destruct (IH (run_op o s).2) as [-> ->].
  by destruct (run_op o s).1.
Qed.

Lemma count_allocs_allocations entity n :
  count_allocs entity (allocations entity n) = n.
Proof.
  induction n as [|n IH]; [done|].
  unfold allocations in *. simpl. rewrite decide_True by done. by rewrite IH.
Qed.

(** A run of allocations of one kind reports that kind only. *)
Lemma run_allocations entity n : ∀ s,
  (run (allocations entity n) s).1 =
    (λ id, (entity, id)) <$> ids_of entity (run (allocations entity n) s).1.
Proof.
  induction n as [|n IH]; intros s; [done|].
  unfold allocations in *. cbn [replicate]. rewrite run_cons, run_op_result.
  cbn [fst snd]. unfold ids_of in *.
  rewrite filter_cons_True by done. rewrite !fmap_cons. cbn [snd].
  f_equal. apply IH.
Qed.
End NewService.

(** ** Identifier allocation *)

(** C1 (amended). On a service opened over a store that holds no counter
    for the kind, as long as the kind has been allocated at most
    [2^63 - 1] times: [N] allocations in a row return [1, 2, ..., N]; and in
    any history of allocations, creations and deletions of keys, the
    identifiers handed out for the kind are [1, 2, ..., k] in call order,
    hence distinct, strictly increasing, and not handed out again after a
    deletion. *)
Theorem C1_sequential_ids {JSON_int64 : JSON Z} (d : DB) (entity : string) :
  kv d !! counter_key entity = None →
  (∀ N : nat,
     Z.of_nat N ≤ Int64.max_int →
     (run (allocations entity N) (NewBadgerService d)).1 =
       (λ i, (entity, Z.of_nat i)) <$> seq 1 N)
  ∧ (∀ h : list op,
       Z.of_nat (count_allocs entity h) ≤ Int64.max_int →
       let ids := ids_of entity (run h (NewBadgerService d)).1 in
       ids = Z.of_nat <$> seq 1 (count_allocs entity h)
       ∧ NoDup ids
       ∧ StronglySorted Z.lt ids).
Proof.
  intros Hfresh.
  pose proof (NewBadgerService_fresh d entity Hfresh) as H0.
  assert (∀ h : list op,
    Z.of_nat (count_allocs entity h) ≤ Int64.max_int →
    ids_of entity (run h (NewBadgerService d)).1 =
      Z.of_nat <$> seq 1 (count_allocs entity h)) as Hids.
  { intros h Hmax.
    destruct (run_ids entity h (NewBadgerService d)) as [-> _]; [lia..|].
    apply list_fmap_ext. intros _ i _. lia. }
  split.
  - intros N Hmax. rewrite run_allocations, Hids.
    + rewrite count_allocs_allocations, <-list_fmap_compose. done.
    + by rewrite count_allocs_allocations.
  - intros h Hmax ids. unfold ids. rewrite (Hids h Hmax).
    split; [done|]. split.
    + apply NoDup_fmap_2; [apply _ | apply NoDup_seq].
    + generalize (count_allocs entity h) as n, 1%nat as a.
      induction n as [|n IH]; intros a; simpl; constructor.
      * apply IH.
      * apply Forall_fmap, Forall_forall. intros i Hi.
        apply elem_of_seq in Hi. simpl. lia.
Qed.

(** A run: two users are allocated, the first record is deleted, and the
    third allocation still returns 3. *)
Lemma C1_sequential_ids_witness :
  ids_of "users"
    (run (JSON_int64 := Demo.JSON_int64)
       [OpNextID "users";
        OpCreate (J := JSON_RawMessage) "users" 1 "{}";
        OpNextID "orders";
        OpNextID "users";
        OpDelete "users:1";
        OpNextID "users"]
       (NewBadgerService (JSON_int64 := Demo.JSON_int64) Demo.empty_db)).1
  = [1; 2; 3].
Proof.
  pose proof (C1_sequential_ids (JSON_int64 := Demo.JSON_int64)
                Demo.empty_db "users" eq_refl) as [_ H].
  specialize (H [OpNextID "users";
                 OpCreate (J := JSON_RawMessage) "users" 1 "{}";
                 OpNextID "orders";
                 OpNextID "users";
                 OpDelete "users:1";
                 OpNextID "users"]).
  destruct H as [H _]; [vm_compute; discriminate|].
  exact H.
Defined.

(** C1 as stated fails past the range of [int64]: allocation number
    [2^63] returns [-2^63]. *)
Lemma C1_counterexample :
  (run (JSON_int64 := Demo.JSON_int64)
     (allocations "users" (Z.to_nat (2 ^ 63)))
     (NewBadgerService (JSON_int64 := Demo.JSON_int64) Demo.empty_db)).1
  ≠ (λ i, ("users", Z.of_nat i)) <$> seq 1 (Z.to_nat (2 ^ 63)).
Proof.
  pose proof (NewBadgerService_fresh (JSON_int64 := Demo.JSON_int64)
                Demo.empty_db "users" eq_refl) as H0.
  revert H0.
  generalize (NewBadgerService (JSON_int64 := Demo.JSON_int64) Demo.empty_db).
  intros s0 H0.
  assert (Z.to_nat (2 ^ 63) = S (Z.to_nat Int64.max_int)) as ->.
  { unfold Int64.max_int. lia. }
  generalize (Z2Nat.id Int64.max_int ltac:(unfold Int64.max_int; lia)).
  generalize (Z.to_nat Int64.max_int) as n. intros n Hn Heq.
  apply (f_equal last) in Heq. revert Heq.
  unfold allocations. rewrite replicate_S_end.
  destruct (run_app (JSON_int64 := Demo.JSON_int64)
              (replicate n (OpNextID "users")) [OpNextID "users"] s0)
    as [-> _].
  rewrite run_cons, run_op_result. cbn [fst snd run mret M_ret].
  destruct (run_ids (JSON_int64 := Demo.JSON_int64) "users"
              (allocations "users" n) s0) as [_ Hcnt].
  { by rewrite H0. }
  { rewrite H0, count_allocs_allocations. lia. }
  unfold allocations in Hcnt. rewrite Hcnt, H0.
  fold (allocations "users" n). rewrite count_allocs_allocations.
  rewrite Z.add_0_l, Hn, incr_max, last_snoc.
  rewrite seq_S, fmap_app, list_fmap_singleton, last_snoc.
  intros Heq.
  assert (Int64.min_int = Z.of_nat (1 + n)) as Hwrap by congruence.
  revert Hwrap. unfold Int64.min_int. lia.
Qed.

(** ** Byte order of keys *)

Lemma ascii_compare_spec (a b : ascii) :
  CompareSpec (a = b) (N_of_ascii a < N_of_ascii b)%N
    (N_of_ascii b < N_of_ascii a)%N (Ascii.compare a b).
Proof.
  unfold Ascii.compare.
  destruct (N.compare_spec (N_of_ascii a) (N_of_ascii b)) as [Heq| |];
    constructor; try done.
  rewrite <-(ascii_N_embedding a), <-(ascii_N_embedding b). by rewrite Heq.
Qed.

Lemma string_ltb_leb (s1 s2 : string) :
  String.ltb s1 s2 = negb (String.leb s2 s1).
Proof.
  unfold String.ltb, String.leb. rewrite (String.compare_antisym s1 s2).
  by destruct (String.compare s2 s1).
Qed.

Lemma string_prefix_nil (s : string) : String.prefix "" s = true.
Proof. by destruct s. Qed.

Lemma string_prefix_cons a b (p s : string) :
  String.prefix (String a p) (String b s) =
    if decide (a = b) then String.prefix p s else false.
Proof. simpl. destruct (ascii_dec a b), (decide (a = b)); congruence. Qed.

(** A key that extends [p] is not below [p]. *)
Lemma string_prefix_le (p k : string) :
  String.prefix p k = true → String.leb p k = true.
Proof.
  revert k. induction p as [|a p IH]; intros [|b k]; try done.
  rewrite string_prefix_cons. destruct (decide (a = b)) as [->|]; [|done].
  intros Hp%IH. revert Hp. unfold String.leb. simpl.
  destruct (ascii_compare_spec b b); [done|lia..].
Qed.

(** Past the keys that extend [p], no key extends [p]. *)
Lemma string_prefix_passed (p k k' : string) :
  String.leb p k = true → String.prefix p k = false →
  String.leb k k' = true → String.prefix p k' = false.
Proof.
  revert k k'. induction p as [|a p IH]; intros [|b k] [|b' k']; try done.
  rewrite !string_prefix_cons. unfold String.leb in *. simpl.
  destruct (ascii_compare_spec a b) as [->|Hab|Hab]; [| |done].
  - rewrite decide_True by done.
    destruct (ascii_compare_spec b b') as [->|Hbb|Hbb]; [| |done].
    + rewrite decide_True by done. apply IH.
    + intros _ _ _. rewrite decide_False; [done|]. intros ->. lia.
  - intros _ _.
    destruct (ascii_compare_spec b b') as [->|Hbb|Hbb]; [| |done].
    + intros _. rewrite decide_False; [done|]. intros ->. lia.
    + intros _. rewrite decide_False; [done|]. intros ->. lia.
Qed.

(** ** Prefix scans *)

#[global] Instance key_le_trans : Transitive key_le.
Proof. intros a b c. unfold key_le. apply transitivity. Qed.

#[global] Instance key_le_total : Total key_le.
Proof. intros a b. unfold key_le. apply total, _. Qed.

Lemma key_le_leb a b : key_le a b ↔ String.leb a.1 b.1 = true.
Proof. unfold key_le, String.le. apply Is_true_true. Qed.

Lemma txn_iterator_perm m : txn_iterator m ≡ₚ map_to_list m.
Proof. apply merge_sort_Permutation. Qed.

Lemma txn_iterator_sorted m : StronglySorted key_le (txn_iterator m).
Proof. apply StronglySorted_merge_sort; apply _. Qed.

Lemma elem_of_txn_iterator m k v : (k, v) ∈ txn_iterator m ↔ m !! k = Some v.
Proof. by rewrite txn_iterator_perm, elem_of_map_to_list. Qed.

Lemma txn_iterator_NoDup m : NoDup (txn_iterator m).*1.
Proof. rewrite txn_iterator_perm. apply NoDup_fst_map_to_list. Qed.

(** Distinct keys in ascending order are in strictly ascending order. *)
Lemma sorted_strict (l : list (string * string)) :
  StronglySorted key_le l → NoDup l.*1 → StronglySorted key_lt l.
Proof.
  induction 1 as [|a l Hl IH Ha]; intros Hnd; [constructor|].
  rewrite fmap_cons in Hnd. apply NoDup_cons in Hnd as [Hnin Hnd].
  constructor; [by apply IH|].
  apply Forall_forall. intros b Hb.
  rewrite Forall_forall in Ha. specialize (Ha b Hb).
  apply key_le_leb in Ha. unfold key_lt. rewrite string_ltb_leb.
  apply negb_true_iff, not_true_is_false. intros Hba.
  apply Hnin. replace a.1 with b.1.
  - by apply list_elem_of_fmap_2.
  - by apply String.leb_antisym.
Qed.

Lemma key_lt_asym a b : key_lt a b → key_lt b a → False.
Proof.
  unfold key_lt. rewrite !string_ltb_leb, !negb_true_iff.
  intros Hba Hab. destruct (String.leb_total a.1 b.1); congruence.
Qed.

Lemma sorted_filter (P : string * string → Prop) `{∀ x, Decision (P x)} l :
  StronglySorted key_lt l → StronglySorted key_lt (filter P l).
Proof.
  induction 1 as [|a l Hl IH Ha]; [constructor|].
  rewrite filter_cons. destruct (decide (P a)); [|done].
  constructor; [done|]. apply Forall_forall. intros b [_ Hb]%list_elem_of_filter.
  rewrite Forall_forall in Ha. by apply Ha.
Qed.

(** [Seek] drops nothing that extends the prefix, and what it leaves is
    not below the prefix. *)
Lemma seek_filter p l : filter (has_prefix p) (seek p l) = filter (has_prefix p) l.
Proof.
  induction l as [|a l IH]; [done|]. simpl.
  destruct (String.ltb a.1 p) eqn:Hlt; [|done].
  rewrite IH, filter_cons_False; [done|].
  unfold has_prefix. intros Hp%string_prefix_le.
  rewrite string_ltb_leb, Hp in Hlt. done.
Qed.

Lemma seek_sorted p l :
  StronglySorted key_le l →
  StronglySorted key_le (seek p l) ∧
  Forall (λ kvp, String.leb p kvp.1 = true) (seek p l).
Proof.
  induction 1 as [|a l Hl IH Ha]; [by split; constructor|]. simpl.
  destruct (String.ltb a.1 p) eqn:Hlt; [done|].
  split; [by constructor|].
  rewrite string_ltb_leb, negb_false_iff in Hlt.
  constructor; [done|].
  eapply Forall_impl; [exact Ha|]. intros b Hab. simpl.
  apply key_le_leb in Hab. apply Is_true_true.
  trans a.1; by apply Is_true_true.
Qed.

Lemma filter_none {A} (P : A → Prop) `{∀ x, Decision (P x)} (l : list A) :
  Forall (λ x, ¬ P x) l → filter P l = [].
Proof.
  induction 1; [done|]. by rewrite filter_cons_False.
Qed.

Lemma while_valid_filter p l :
  StronglySorted key_le l →
  Forall (λ kvp, String.leb p kvp.1 = true) l →
  while_valid_for_prefix p l = filter (has_prefix p) l.
Proof.
  induction 1 as [|a l Hl IH Ha]; intros Hge; [done|].
  apply Forall_cons in Hge as [Hpa Hge]. simpl.
  destruct (String.prefix p a.1) eqn:Hp.
  - rewrite filter_cons_True by done. by rewrite IH.
  - rewrite filter_cons_False by (unfold has_prefix; congruence).
    symmetry. apply filter_none. clear IH Hge Hl.
    eapply Forall_impl; [exact Ha|]. intros b Hab%key_le_leb. unfold has_prefix.
    by rewrite (string_prefix_passed p a.1 b.1).
Qed.

(** A scan is the iterator cut down to the keys that extend the prefix. *)
Lemma txn_scan_filter p m :
  txn_scan p m = filter (has_prefix p) (txn_iterator m).
Proof.
  unfold txn_scan.
  destruct (seek_sorted p (txn_iterator m) (txn_iterator_sorted m)).
  by rewrite while_valid_filter, seek_filter.
Qed.

Lemma elem_of_txn_scan p m k v :
  (k, v) ∈ txn_scan p m ↔ m !! k = Some v ∧ String.prefix p k = true.
Proof.
  rewrite txn_scan_filter, list_elem_of_filter, elem_of_txn_iterator.
  unfold has_prefix. simpl. tauto.
Qed.

Lemma txn_scan_sorted p m : StronglySorted key_lt (txn_scan p m).
Proof.
  rewrite txn_scan_filter. apply sorted_filter, sorted_strict.
  - apply txn_iterator_sorted.
  - apply txn_iterator_NoDup.
Qed.

Lemma sorted_NoDup (l : list (string * string)) :
  StronglySorted key_lt l → NoDup l.
Proof.
  induction 1 as [|a l Hl IH Ha]; constructor; [|done].
  intros Hin. rewrite Forall_forall in Ha.
  by destruct (key_lt_asym a a); apply Ha.
Qed.

(** Two stores that agree under a prefix scan alike under it. *)
Lemma txn_scan_ext p (m1 m2 : gmap string string) :
  (∀ k, String.prefix p k = true → m1 !! k = m2 !! k) →
  txn_scan p m1 = txn_scan p m2.
Proof.
  intros Hagree. apply (StronglySorted_unique_strong key_lt).
  - intros a b _ _ Hab Hba. destruct (key_lt_asym a b Hab Hba).
  - apply txn_scan_sorted.
  - apply txn_scan_sorted.
  - apply NoDup_Permutation; [apply sorted_NoDup, txn_scan_sorted..|].
    intros [k v]. rewrite !elem_of_txn_scan.
    split; intros [Hk Hp]; (split; [|done]).
    + by rewrite <-Hagree.
    + by rewrite Hagree.
Qed.

(** ** Allocation and persistence *)

Section Persistence.
Context {JSON_int64 : JSON Z}.

(** C7 (amended). When the store rejects the transaction that persists
    the incremented counter, [getNextID] returns the incremented
    identifier exactly as it does when the write succeeds (it has no
    error result, the failure is dropped); the in-memory counter keeps
    the incremented value and the store keeps what it had. *)
Theorem C7_persist_failure_dropped (s : BadgerService) (entity : string)
    (fs : list bool) :
  faults (db s) = true :: fs →
  let r := getNextID entity s in
  r.1 = Int64.incr (counter_of s entity)
  ∧ r.1 = (getNextID entity
             (mkService (mkDB (kv (db s)) (false :: fs)) (counters s))).1
  ∧ counter_of r.2 entity = r.1
  ∧ kv (db r.2) = kv (db s).
Proof.
  intros Hfault r. unfold r. rewrite !getNextID_eq. cbn [fst snd].
  unfold commit. rewrite Hfault. cbn [fst snd db kv].
  repeat split.
  unfold counter_of. cbn [counters]. by rewrite lookup_insert_eq.
Qed.
End Persistence.

Lemma C7_persist_failure_dropped_witness :
  (getNextID (JSON_int64 := Demo.JSON_int64) "users" Demo.failing_service).1 = 1
  ∧ counter_of
      (getNextID (JSON_int64 := Demo.JSON_int64) "users" Demo.failing_service).2
      "users" = 1
  ∧ kv (db (getNextID (JSON_int64 := Demo.JSON_int64) "users"
              Demo.failing_service).2) = ∅.
Proof.
  destruct (C7_persist_failure_dropped (JSON_int64 := Demo.JSON_int64)
              Demo.failing_service "users" [] eq_refl) as (H1 & _ & H3 & H4).
  split; [exact H1|]. split; [|exact H4].
  rewrite H3. exact H1.
Defined.

(** C7 as stated fails: on a store that rejects the write, the caller is
    handed the same identifier as on a store that accepts it, and nothing
    else; only the store tells the two runs apart. *)
Lemma C7_counterexample :
  (getNextID (JSON_int64 := Demo.JSON_int64) "users" Demo.failing_service).1
    = (getNextID (JSON_int64 := Demo.JSON_int64) "users" Demo.working_service).1
  ∧ kv (db (getNextID (JSON_int64 := Demo.JSON_int64) "users"
              Demo.failing_service).2) !! "counter:users" = None
  ∧ kv (db (getNextID (JSON_int64 := Demo.JSON_int64) "users"
              Demo.working_service).2) !! "counter:users" = Some "1".
Proof. vm_compute. done. Qed.

(** ** Counter keys and record keys *)

Lemma counter_key_no_prefix (e entity : string) :
  e ∈ entities → String.prefix (entity_prefix e) (counter_key entity) = false.
Proof.
  unfold entities. rewrite !elem_of_cons, elem_of_nil.
  intros [->|[->|[->|[->|[->|[]]]]]]; reflexivity.
Qed.

Lemma entity_key_not_counter (e entity : string) (id : Z) :
  e ∈ entities → entity_key e id ≠ counter_key entity.
Proof.
  unfold entities. rewrite !elem_of_cons, elem_of_nil.
  intros [->|[->|[->|[->|[->|[]]]]]]; discriminate.
Qed.

Section Invisible.
Context {JSON_int64 : JSON Z}.

(** An allocation writes at most the counter key of its kind. *)
Lemma getNextID_kv entity s k :
  k ≠ counter_key entity →
  kv (db (getNextID entity s).2) !! k = kv (db s) !! k.
Proof.
  intros Hk. rewrite getNextID_eq. cbn [snd db]. unfold commit, txn_set.
  destruct (faults (db s)) as [|[] fs]; cbn [snd kv]; [|done|];
    by rewrite lookup_insert_ne.
Qed.

End Invisible.

(** C10 at a failing input. Ninety-nine categories are created in turn on
    an empty store: with the counter of the categories, 100 keys are at
    or after ["categories:"], and the categories are listed as they are
    stored, that of identifier 1 first. An allocation for the users then
    writes ["counter:users"], the 101st of these keys. Its value, ["1"],
    is copied into the buffer of the first category: the slice kept for
    that category reads ["11]"], and the listing of the categories fails,
    on records that are all as they were written. After 100 allocations
    the value of the counter, ["100"], is as long as the first record:
    the records are still as they were written, and a listing of the
    categories as raw messages returns the value of the counter in the
    place of the first of them. *)
Lemma C10_counter_read_by_list :
  length (seek (entity_prefix "categories")
            (txn_iterator (kv (db Demo.catalogue)))) = 100%nat
  ∧ head (txn_scan (entity_prefix "categories") (kv (db Demo.catalogue)))
    = Some (entity_key "categories" 1, "[1]")
  ∧ (list_ (J := JSON_RawMessage) (V := Demo.numbers) Demo.handed_on
       "categories" Demo.catalogue).1
    = Ok (txn_scan (entity_prefix "categories") (kv (db Demo.catalogue))).*2
  ∧ is_ok (list_ (J := Demo.JSON_category_id) (V := Demo.numbers)
             Demo.handed_on "categories" Demo.catalogue).1 = true
  ∧ last (seek (entity_prefix "categories")
            (txn_iterator
               (kv (db (getNextID (JSON_int64 := Demo.JSON_int64) "users"
                          Demo.catalogue).2))))
    = Some (counter_key "users", "1")
  ∧ head (kept Demo.handed_on (entity_prefix "categories")
            (seek (entity_prefix "categories")
               (txn_iterator
                  (kv (db (getNextID (JSON_int64 := Demo.JSON_int64) "users"
                             Demo.catalogue).2))))
            (txn_scan (entity_prefix "categories")
               (kv (db (getNextID (JSON_int64 := Demo.JSON_int64) "users"
                          Demo.catalogue).2))).*2)
    = Some "11]"
  ∧ (list_ (J := Demo.JSON_category_id) (V := Demo.numbers)
       Demo.handed_on "categories"
       (getNextID (JSON_int64 := Demo.JSON_int64) "users"
          Demo.catalogue).2).1
    = Err ErrMarshal
  ∧ kv (db (run (JSON_int64 := Demo.JSON_int64) (allocations "users" 100)
              Demo.catalogue).2) !! counter_key "users" = Some "100"
  ∧ txn_scan (entity_prefix "categories")
      (kv (db (run (JSON_int64 := Demo.JSON_int64) (allocations "users" 100)
                 Demo.catalogue).2))
    = txn_scan (entity_prefix "categories") (kv (db Demo.catalogue))
  ∧ (list_ (J := JSON_RawMessage) (V := Demo.numbers) Demo.handed_on
       "categories"
       (run (JSON_int64 := Demo.JSON_int64) (allocations "users" 100)
          Demo.catalogue).2).1
    = Ok ("100" ::
          tail (txn_scan (entity_prefix "categories")
                  (kv (db Demo.catalogue))).*2).
Proof. repeat split; vm_compute; reflexivity. Qed.

(** ** Decimal keys *)

Lemma string_app_cons (x : ascii) (a b : string) :
  String x a +:+ b = String x (a +:+ b).
Proof. reflexivity. Qed.

Lemma string_app_assoc (a b c : string) : (a +:+ b) +:+ c = a +:+ (b +:+ c).
Proof.
  induction a as [|x a IH]; [done|]. by rewrite !string_app_cons, IH.
Qed.

Lemma string_app_length (a b : string) :
  String.length (a +:+ b) = (String.length a + String.length b)%nat.
Proof.
  induction a as [|x a IH]; [done|]. rewrite string_app_cons. simpl.
  by rewrite IH.
Qed.

Lemma string_compare_refl (s : string) : String.compare s s = Eq.
Proof.
  induction s as [|a s IH]; simpl; [done|].
  destruct (ascii_compare_spec a a); [done|lia..].
Qed.

(** Strings of one length compare by their first difference. *)
Lemma string_compare_app (a b s t : string) :
  String.length a = String.length b →
  String.compare (a +:+ s) (b +:+ t) =
    match String.compare a b with
    | Eq => String.compare s t
    | c => c
    end.
Proof.
  revert b. induction a as [|x a IH]; intros [|y b] Hlen; try done.
  rewrite !string_app_cons. simpl in *.
  destruct (Ascii.compare x y); [|done..].
  apply IH. congruence.
Qed.

Lemma pretty_N_char_compare (x y : N) :
  (x < 10)%N → (y < 10)%N →
  Ascii.compare (pretty_N_char x) (pretty_N_char y) = (x ?= y)%N.
Proof.
  intros Hx Hy.
  assert (x ∈ [0; 1; 2; 3; 4; 5; 6; 7; 8; 9]%N) as Hxs.
  { rewrite !elem_of_cons. lia. }
  assert (y ∈ [0; 1; 2; 3; 4; 5; 6; 7; 8; 9]%N) as Hys.
  { rewrite !elem_of_cons. lia. }
  rewrite !elem_of_cons, elem_of_nil in Hxs, Hys.
  destruct Hxs as [->|[->|[->|[->|[->|[->|[->|[->|[->|[->|[]]]]]]]]]]];
  destruct Hys as [->|[->|[->|[->|[->|[->|[->|[->|[->|[->|[]]]]]]]]]]];
  reflexivity.
Qed.

(** The digits of [x], most significant first; none for zero. *)
Lemma pretty_N_go_app (x : N) : ∀ s, pretty_N_go x s = pretty_N_go x "" +:+ s.
Proof.
  induction (N.lt_wf_0 x) as [x _ IH]. intros s.
  destruct (decide (x = 0)%N) as [->|Hx]; [done|].
  rewrite !(pretty_N_go_step x) by lia.
  rewrite (IH (x `div` 10)%N) by (apply N.div_lt; lia).
  rewrite (IH (x `div` 10)%N ltac:(apply N.div_lt; lia) (String _ "")).
  by rewrite string_app_assoc.
Qed.

Lemma pretty_N_go_snoc (x : N) :
  (0 < x)%N →
  pretty_N_go x "" =
    pretty_N_go (x `div` 10) "" +:+ String (pretty_N_char (x `mod` 10)) "".
Proof. intros Hx. by rewrite pretty_N_go_step, pretty_N_go_app. Qed.

Lemma pretty_N_go_length_0 (x : N) :
  String.length (pretty_N_go x "") = 0%nat → x = 0%N.
Proof.
  destruct (decide (x = 0)%N) as [->|Hx]; [done|].
  rewrite pretty_N_go_snoc, string_app_length by lia. simpl. lia.
Qed.

Lemma N_compare_digits (x y : N) :
  (x ?= y)%N =
    match (x `div` 10 ?= y `div` 10)%N with
    | Eq => (x `mod` 10 ?= y `mod` 10)%N
    | c => c
    end.
Proof.
  pose proof (N.div_mod x 10 ltac:(done)) as Hx.
  pose proof (N.div_mod y 10 ltac:(done)) as Hy.
  pose proof (N.mod_lt x 10 ltac:(done)).
  pose proof (N.mod_lt y 10 ltac:(done)).
  revert Hx Hy H H0.
  generalize (x `div` 10)%N (x `mod` 10)%N (y `div` 10)%N (y `mod` 10)%N.
  intros qx rx qy ry Hx Hy Hrx Hry.
  destruct (N.compare_spec qx qy); [destruct (N.compare_spec rx ry)|..].
  - apply N.compare_eq_iff. lia.
  - apply N.compare_lt_iff. lia.
  - apply N.compare_gt_iff. lia.
  - apply N.compare_lt_iff. lia.
  - apply N.compare_gt_iff. lia.
Qed.

Lemma pretty_N_go_compare (x : N) : ∀ y,
  String.length (pretty_N_go x "") = String.length (pretty_N_go y "") →
  String.compare (pretty_N_go x "") (pretty_N_go y "") = (x ?= y)%N.
Proof.
  induction (N.lt_wf_0 x) as [x _ IH]. intros y Hlen.
  destruct (decide (x = 0)%N) as [->|Hx].
  { symmetry in Hlen. by apply pretty_N_go_length_0 in Hlen as ->. }
  destruct (decide (y = 0)%N) as [->|Hy].
  { by apply pretty_N_go_length_0 in Hlen. }
  rewrite (pretty_N_go_snoc x), (pretty_N_go_snoc y) in Hlen |- * by lia.
  rewrite !string_app_length in Hlen. simpl in Hlen.
  rewrite string_compare_app by lia.
  rewrite IH by (try apply N.div_lt; lia).
  rewrite (N_compare_digits x y).
  destruct (x `div` 10 ?= y `div` 10)%N; [|done..].
  simpl. rewrite pretty_N_char_compare by (by apply N.mod_lt).
  by destruct (x `mod` 10 ?= y `mod` 10)%N.
Qed.

Lemma pretty_N_snoc (x : N) :
  pretty x =
    pretty_N_go (x `div` 10) "" +:+ String (pretty_N_char (x `mod` 10)) "".
Proof.
  unfold pretty, pretty_N. destruct (decide (x = 0)%N) as [->|Hx]; [done|].
  apply pretty_N_go_snoc. lia.
Qed.

(** Decimal numerals of one length are ordered as the numbers are. *)
Lemma pretty_N_compare (x y : N) :
  String.length (pretty x) = String.length (pretty y) →
  String.compare (pretty x) (pretty y) = (x ?= y)%N.
Proof.
  rewrite (pretty_N_snoc x), (pretty_N_snoc y), !string_app_length.
  simpl. intros Hlen.
  rewrite string_compare_app, pretty_N_go_compare by lia.
  rewrite (N_compare_digits x y).
  destruct (x `div` 10 ?= y `div` 10)%N; [|done..].
  simpl. rewrite pretty_N_char_compare by (by apply N.mod_lt).
  by destruct (x `mod` 10 ?= y `mod` 10)%N.
Qed.

Lemma pretty_Z_nonneg (a : Z) : 0 ≤ a → pretty a = pretty (Z.to_N a).
Proof. by destruct a. Qed.

Lemma entity_key_compare (entity : string) (a b : Z) :
  0 ≤ a → 0 ≤ b →
  String.length (pretty a) = String.length (pretty b) →
  String.compare (entity_key entity a) (entity_key entity b) = (a ?= b).
Proof.
  intros Ha Hb Hlen. unfold entity_key.
  rewrite string_compare_app, string_compare_refl by done.
  rewrite (string_compare_app ":" ":") by done. simpl.
  rewrite !pretty_Z_nonneg in Hlen |- * by done.
  rewrite pretty_N_compare by done.
  by rewrite <-(Z2N.inj_compare a b).
Qed.

(** ** Listing order *)

Lemma unmarshal_items_Forall2 {T} {J : JSON T} (items : list string) :
  ∀ xs : list T,
    unmarshal_items items = Some xs →
    Forall2 (λ val x, unmarshal val = Some x) items xs.
Proof.
  induction items as [|val items IH]; intros xs; simpl.
  { intros [= <-]. constructor. }
  destruct (unmarshal val) as [x|] eqn:Hx; [|done].
  destruct (unmarshal_items items) as [xs'|]; [|done].
  intros [= <-]. constructor; [done|]. by apply IH.
Qed.

Lemma kept_within lent prefix reach vals :
  (length reach ≤ PrefetchSize)%nat → kept lent prefix reach vals = vals.
Proof. intros Hlen. unfold kept. by rewrite decide_True. Qed.

Lemma length_kept lent prefix reach vals :
  length (kept lent prefix reach vals) = length vals.
Proof. unfold kept. destruct (decide _); [done|apply length_imap]. Qed.

Section ListFacts.
Context {T : Type} {J : JSON T} {V : Valid}.

Lemma list_eq lent entity s :
  (list_ (T := T) lent entity s).1 =
    decode_items
      (kept lent (entity_prefix entity)
         (seek (entity_prefix entity) (txn_iterator (kv (db s))))
         (txn_scan (entity_prefix entity) (kv (db s))).*2).
Proof. reflexivity. Qed.

(** Within the prefetch, [list] decodes the values as they are stored. *)
Lemma list_within_prefetch lent entity s :
  within_prefetch entity (kv (db s)) →
  (list_ (T := T) lent entity s).1 =
    decode_items (txn_scan (entity_prefix entity) (kv (db s))).*2.
Proof. intros Hin. by rewrite list_eq, kept_within. Qed.

Lemma decode_items_Ok (items : list string) (xs : list T) :
  decode_items items = Ok xs →
  forallb json_Valid items = true
  ∧ Forall2 (λ val x, unmarshal val = Some x) items xs.
Proof.
  unfold decode_items. destruct (forallb json_Valid items); [|done].
  destruct (unmarshal_items items) as [xs'|] eqn:Hitems; [|done].
  intros [= <-]. split; [done|]. by apply unmarshal_items_Forall2.
Qed.

Lemma decode_items_length (items : list string) (xs : list T) :
  decode_items items = Ok xs → length xs = length items.
Proof.
  intros [_ Hall]%decode_items_Ok. symmetry. by eapply Forall2_length.
Qed.
End ListFacts.

(** C6 (amended). A scan under ["<entity>:"] visits exactly the pairs of
    the store whose key extends the prefix, each once, in strictly
    ascending byte order of the keys. When no more than [PrefetchSize]
    keys of the store are at or after the prefix, [list] decodes the
    values of these pairs as they are stored, and what it returns is
    their decoding in that order. On record keys the byte order is the
    order of the identifiers among non-negative identifiers whose decimal
    numerals have the same length; across lengths it is not
    (["users:10"] comes before ["users:2"]). *)
Theorem C6_list_key_order {T : Type} {J : JSON T} {V : Valid} (lent : Lent)
    (entity : string) (s : BadgerService) :
  (∀ k v, (k, v) ∈ txn_scan (entity_prefix entity) (kv (db s)) ↔
            kv (db s) !! k = Some v ∧
            String.prefix (entity_prefix entity) k = true)
  ∧ StronglySorted key_lt (txn_scan (entity_prefix entity) (kv (db s)))
  ∧ (within_prefetch entity (kv (db s)) →
       (list_ (T := T) lent entity s).1 =
         decode_items (txn_scan (entity_prefix entity) (kv (db s))).*2
       ∧ ∀ xs : list T,
           (list_ lent entity s).1 = Ok xs →
           Forall2 (λ kvp x, unmarshal kvp.2 = Some x)
             (txn_scan (entity_prefix entity) (kv (db s))) xs)
  ∧ (∀ (a b : Z) (va vb : string),
       0 ≤ a → 0 ≤ b →
       String.length (pretty a) = String.length (pretty b) →
       (key_lt (entity_key entity a, va) (entity_key entity b, vb) ↔ a < b)).
Proof.
  split; [intros k v; apply elem_of_txn_scan|].
  split; [apply txn_scan_sorted|].
  split.
  - intros Hin. split; [by apply list_within_prefetch|].
    intros xs. rewrite list_within_prefetch by done.
    intros [_ Hall]%decode_items_Ok. by apply Forall2_fmap_l in Hall.
  - intros a b va vb Ha Hb Hlen. unfold key_lt, String.ltb. cbn [fst].
    rewrite entity_key_compare by done.
    unfold Z.lt. by destruct (a ?= b).
Qed.

Lemma C6_list_key_order_witness :
  Forall2 (λ kvp x, unmarshal (JSON := Demo.JSON_User) kvp.2 = Some x)
    (txn_scan (entity_prefix "users") (kv (db Demo.shop)))
    [Demo.u1; Demo.u2; Demo.u3]
  ∧ (key_lt (entity_key "users" 17, "[17]") (entity_key "users" 42, "[42]") ↔
     17 < 42).
Proof.
  destruct (C6_list_key_order (J := Demo.JSON_User) (V := Demo.any_text)
              Demo.handed_on "users" Demo.shop) as (_ & _ & H3 & H4).
  split.
  - apply H3.
    + unfold within_prefetch. vm_compute. lia.
    + vm_compute. reflexivity.
  - apply H4; [lia | lia | reflexivity].
Defined.

(** C6 as stated fails: the record created under 10 is listed before the
    record created under 2. *)
Lemma C6_counterexample :
  (list_ (J := JSON_RawMessage) (V := Demo.any_text) Demo.handed_on "users"
     (run (JSON_int64 := Demo.JSON_int64) Demo.two_and_ten
        (NewBadgerService (JSON_int64 := Demo.JSON_int64) Demo.empty_db)).2).1
  = Ok ["[10]"; "[2]"].
Proof. vm_compute. reflexivity. Qed.

(** ** Reads *)

Lemma read_only_apply {A} (c : M A) s : read_only c → c s = ((c s).1, s).
Proof. intros Hc. rewrite <-(Hc s) at 3. by destruct (c s). Qed.

Lemma read_only_get {T} {J : JSON T} entity id : read_only (get (T := T) entity id).
Proof. apply read_only_View. Qed.

Lemma read_only_list {T} {J : JSON T} {V : Valid} lent entity :
  read_only (list_ (T := T) lent entity).
Proof. apply read_only_View. Qed.

(** A loop that appends a row or skips collects the rows in order. *)
Lemma foldl_snoc_omap {A B} (f : A → option B) (xs : list A) : ∀ acc,
  foldl (λ acc x, match f x with Some y => acc ++ [y] | None => acc end) acc xs
  = acc ++ omap f xs.
Proof.
  induction xs as [|x xs IH]; intros acc; simpl.
  { by rewrite app_nil_r. }
  rewrite IH. destruct (f x); [|done]. by rewrite <-app_assoc.
Qed.

Lemma foldl_ext {A B} (f g : A → B → A) (xs : list B) :
  (∀ a x, f a x = g a x) → ∀ a, foldl f a xs = foldl g a xs.
Proof.
  intros Hfg. induction xs as [|x xs IH]; intros a; simpl; [done|].
  by rewrite Hfg, IH.
Qed.

Section Joins.
Context {JSON_User : JSON User} {JSON_Company : JSON Company}
        {JSON_Order : JSON Order} {JSON_Product : JSON Product}
        {JSON_Category : JSON Category} {V : Valid}.
Variable lent : Lent.

Lemma GetUsersWithCompanies_eq s :
  GetUsersWithCompanies lent s =
    (match (list_ (T := User) lent "users" s).1 with
     | Err err => ([], Some err)
     | Ok users =>
         (omap (λ user,
            match (get (T := Company) "companies" (user_CompanyID user) s).1 with
            | Ok company => Some (mkUserWithCompany user company)
            | Err _ => None
            end) users, None)
     end, s).
Proof.
  unfold GetUsersWithCompanies. rewrite bind_apply.
  rewrite (read_only_apply (list_ lent "users") s) by apply read_only_list.
  cbn [fst snd]. destruct (list_ lent "users" s).1 as [users|err]; [|done].
  rewrite bind_apply, forM_read_only.
  - cbn [fst snd]. rewrite ret_apply. f_equal. f_equal.
    rewrite <-(app_nil_l (omap _ users)), <-foldl_snoc_omap.
    apply foldl_ext. intros results user. rewrite bind_apply.
    by destruct (get "companies" _ s).1.
  - intros results user. apply read_only_bind; [apply read_only_get|].
    intros [company|err]; apply read_only_ret.
Qed.

(** X17. When the users can be listed, [GetUsersWithCompanies] succeeds
    with rows such that: a user whose company lookup fails is in no row;
    a listed user whose company lookup succeeds is in a row with the
    company found; every row pairs a user with the company found for it;
    the users of the rows are the listed users whose lookup succeeds, in
    listing order. When no more than [PrefetchSize] keys are at or after
    ["users:"], the listed users are the stored ones, decoded in key
    order. *)
Theorem X17_users_with_companies (s : BadgerService) (users : list User) :
  (list_ (T := User) lent "users" s).1 = Ok users →
  ∃ results,
    (GetUsersWithCompanies lent s).1 = (results, None)
    ∧ (within_prefetch "users" (kv (db s)) →
       Forall2 (λ kvp user, unmarshal kvp.2 = Some user)
         (txn_scan (entity_prefix "users") (kv (db s))) users)
    ∧ (∀ user err,
         (get (T := Company) "companies" (user_CompanyID user) s).1 = Err err →
         ∀ row, row ∈ results → uc_User row ≠ user)
    ∧ (∀ user company,
         user ∈ users →
         (get (T := Company) "companies" (user_CompanyID user) s).1 = Ok company →
         mkUserWithCompany user company ∈ results)
    ∧ (∀ row, row ∈ results →
         (get (T := Company) "companies" (user_CompanyID (uc_User row)) s).1
           = Ok (uc_Company row))
    ∧ uc_User <$> results =
        filter (λ user,
          is_ok (get (T := Company) "companies" (user_CompanyID user) s).1 = true)
          users.
Proof.
  intros Hlist. rewrite GetUsersWithCompanies_eq, Hlist. cbn [fst].
  eexists. split; [reflexivity|].
  split.
  { intros Hin. rewrite list_within_prefetch in Hlist by done.
    apply decode_items_Ok in Hlist as [_ Hall].
    by apply Forall2_fmap_l in Hall. }
  set (join := λ user, match (get "companies" (user_CompanyID user) s).1 with
                       | Ok company => Some (mkUserWithCompany user company)
                       | Err _ => None
                       end).
  assert (∀ row, row ∈ omap join users ↔
            uc_User row ∈ users ∧
            (get (T := Company) "companies" (user_CompanyID (uc_User row)) s).1
              = Ok (uc_Company row)) as Hrow.
  { intros row. rewrite list_elem_of_omap. unfold join. split.
    - intros (user & Hin & Hjoin).
      destruct (get "companies" _ s).1 as [company|] eqn:Hget; [|done].
      injection Hjoin as <-. by split.
    - intros [Hin Hget]. exists (uc_User row). split; [done|].
      rewrite Hget. by destruct row. }
  repeat split.
  - intros user err Herr row [_ Hget]%Hrow <-. congruence.
  - intros user company Hin Hget. apply Hrow. by split.
  - intros row Hin. by apply Hrow.
  - clear Hrow Hlist. induction users as [|user users IH]; [done|].
    rewrite filter_cons. cbn [omap list_omap]. unfold join at 1.
    destruct (get "companies" _ s).1 as [company|err]; cbn [is_ok].
    + rewrite decide_True by done. by rewrite fmap_cons, IH.
    + rewrite decide_False by done. exact IH.
Qed.

Lemma GetUserOrdersWithProducts_eq userID s :
  GetUserOrdersWithProducts lent userID s =
    (match (list_ (T := Order) lent "orders" s).1 with
     | Err err => ([], Some err)
     | Ok orders =>
         match (get (T := User) "users" userID s).1 with
         | Err err => ([], Some (ErrWrap "user not found" err))
         | Ok user => (omap (user_order_row s userID user) orders, None)
         end
     end, s).
Proof.
  unfold GetUserOrdersWithProducts. rewrite bind_apply.
  rewrite (read_only_apply (list_ lent "orders") s) by apply read_only_list.
  cbn [fst snd]. destruct (list_ lent "orders" s).1 as [orders|err]; [|done].
  rewrite bind_apply.
  rewrite (read_only_apply (get "users" userID) s) by apply read_only_get.
  cbn [fst snd]. destruct (get "users" userID s).1 as [user|err]; [|done].
  rewrite bind_apply, forM_read_only.
  - cbn [fst snd]. rewrite ret_apply. f_equal. f_equal.
    rewrite <-(app_nil_l (omap _ orders)), <-foldl_snoc_omap.
    apply foldl_ext. intros results order. unfold user_order_row.
    destruct (negb _); [done|]. rewrite bind_apply.
    rewrite (read_only_apply (get "products" _) s) by apply read_only_get.
    cbn [fst snd]. destruct (get "products" _ s).1 as [product|]; [|done].
    rewrite bind_apply.
    by destruct (get "categories" _ s).1.
  - intros results order. destruct (negb _); [apply read_only_ret|].
    apply read_only_bind; [apply read_only_get|].
    intros [product|err]; [|apply read_only_ret].
    apply read_only_bind; [apply read_only_get|].
    intros [category|err]; apply read_only_ret.
Qed.

(** C2 (amended). With no record under the key of the user,
    [GetUserOrdersWithProducts] fails and returns no rows. The orders are
    listed first: when that fails its error is the one returned, otherwise
    the error is the store's key-not-found, wrapped as "user not found". *)
Theorem C2_missing_user_fails (s : BadgerService) (userID : Z) :
  kv (db s) !! entity_key "users" userID = None →
  (GetUserOrdersWithProducts lent userID s).1 =
    ([], Some match (list_ (T := Order) lent "orders" s).1 with
              | Err err => err
              | Ok _ => ErrWrap "user not found" ErrKeyNotFound
              end).
Proof.
  intros Hmissing. rewrite GetUserOrdersWithProducts_eq. cbn [fst].
  destruct (list_ lent "orders" s).1 as [orders|err]; [|done].
  unfold get, View, txn_get. cbn [fst]. by rewrite Hmissing.
Qed.

(** C9. When [GetUserOrdersWithProducts lent userID] succeeds, the user was
    found under [userID], every row carries that user and an order whose
    user identifier is [userID], and so no row carries an order of another
    user. *)
Theorem C9_rows_of_the_user (s : BadgerService) (userID : Z)
    (rows : list OrderWithDetails) :
  (GetUserOrdersWithProducts lent userID s).1 = (rows, None) →
  ∃ user,
    (get (T := User) "users" userID s).1 = Ok user
    ∧ (∀ row, row ∈ rows →
         order_UserID (od_Order row) = userID ∧ od_User row = user)
    ∧ (∀ order, order_UserID order ≠ userID →
         ∀ row, row ∈ rows → od_Order row ≠ order).
Proof.
  rewrite GetUserOrdersWithProducts_eq. cbn [fst].
  destruct (list_ lent "orders" s).1 as [orders|err]; [|done].
  destruct (get "users" userID s).1 as [user|err]; [|done].
  intros [= <-]. exists user. split; [done|].
  match goal with |- ?P ∧ _ => assert P as Hrows end;
    [|split; [done|]; intros order Hne row [Hid _]%Hrows <-; done].
  intros row (order & _ & Hrow)%list_elem_of_omap.
  unfold user_order_row in Hrow.
  destruct (order_UserID order =? userID) eqn:Hid; [|done].
  apply Z.eqb_eq in Hid. cbn [negb] in Hrow.
  destruct (get "products" _ s).1 as [product|]; [|done].
  destruct (get "categories" _ s).1 as [category|]; [|done].
  by injection Hrow as <-.
Qed.
End Joins.

(** C3 at a failing input. Two companies and 102 users are created in
    turn on an empty store, user 10 of company 2 and the others of
    company 1. User 10 is stored, and its company can be looked up. Of
    the 102 keys under ["users:"], that of user 10 is the second and that
    of user 99 the last; the two records are equally long, and the buffer
    of the first is handed to the second. [GetUsersWithCompanies] returns
    102 rows and no error: user 10 is in none of them, user 99 is in
    two. *)
Lemma C3_stored_user_left_out :
  (get (J := Demo.JSON_user_pair) "users" 10 Demo.crowd).1
    = Ok (mkUser 10 "" "" 2 0)
  ∧ (get (J := Demo.JSON_company_id) "companies" 2 Demo.crowd).1
    = Ok (mkCompany 2 "" "" 0)
  ∧ (GetUsersWithCompanies (JSON_User := Demo.JSON_user_pair)
       (JSON_Company := Demo.JSON_company_id) (V := Demo.numbers)
       Demo.handed_on Demo.crowd).1.2 = None
  ∧ length
      (GetUsersWithCompanies (JSON_User := Demo.JSON_user_pair)
         (JSON_Company := Demo.JSON_company_id) (V := Demo.numbers)
         Demo.handed_on Demo.crowd).1.1 = 102%nat
  ∧ filter (λ row, user_ID (uc_User row) = 10)
      (GetUsersWithCompanies (JSON_User := Demo.JSON_user_pair)
         (JSON_Company := Demo.JSON_company_id) (V := Demo.numbers)
         Demo.handed_on Demo.crowd).1.1 = []
  ∧ filter (λ row, user_ID (uc_User row) = 99)
      (GetUsersWithCompanies (JSON_User := Demo.JSON_user_pair)
         (JSON_Company := Demo.JSON_company_id) (V := Demo.numbers)
         Demo.handed_on Demo.crowd).1.1
    = [mkUserWithCompany (mkUser 99 "" "" 1 0) (mkCompany 1 "" "" 0);
       mkUserWithCompany (mkUser 99 "" "" 1 0) (mkCompany 1 "" "" 0)].
Proof. repeat split; vm_compute; reflexivity. Qed.

Lemma X17_users_with_companies_witness :
  ∃ results,
    (GetUsersWithCompanies (JSON_User := Demo.JSON_User)
       (JSON_Company := Demo.JSON_Company) (V := Demo.any_text) Demo.handed_on Demo.shop).1 = (results, None)
    ∧ uc_User <$> results = [Demo.u1; Demo.u2].
Proof.
  destruct (X17_users_with_companies (JSON_User := Demo.JSON_User)
              (JSON_Company := Demo.JSON_Company) (V := Demo.any_text) Demo.handed_on Demo.shop
              [Demo.u1; Demo.u2; Demo.u3])
    as (results & Hres & _ & _ & _ & _ & Husers).
  { vm_compute. reflexivity. }
  exists results. split; [exact Hres|].
  rewrite Husers. vm_compute. reflexivity.
Defined.

Lemma C2_missing_user_fails_witness :
  (GetUserOrdersWithProducts (JSON_User := Demo.JSON_User)
     (JSON_Order := Demo.JSON_Order) (JSON_Product := Demo.JSON_Product)
     (JSON_Category := Demo.JSON_Category) (V := Demo.any_text) Demo.handed_on 7 Demo.shop).1
  = ([], Some (ErrWrap "user not found" ErrKeyNotFound)).
Proof.
  rewrite (C2_missing_user_fails (JSON_User := Demo.JSON_User)
             (JSON_Order := Demo.JSON_Order)
             (JSON_Product := Demo.JSON_Product)
             (JSON_Category := Demo.JSON_Category) (V := Demo.any_text) Demo.handed_on Demo.shop 7).
  - vm_compute. reflexivity.
  - vm_compute. reflexivity.
Defined.

(** C2 as stated fails: with no user 7 and an order that cannot be
    decoded, the error returned is the decoding error of the listing, not
    a key-not-found. *)
Lemma C2_counterexample :
  kv (db Demo.broken_shop) !! entity_key "users" 7 = None
  ∧ (GetUserOrdersWithProducts (JSON_User := Demo.JSON_User)
       (JSON_Order := Demo.JSON_Order) (JSON_Product := Demo.JSON_Product)
       (JSON_Category := Demo.JSON_Category) (V := Demo.any_text) Demo.handed_on 7 Demo.broken_shop).1
    = ([], Some ErrUnmarshal)
  ∧ is_not_found ErrUnmarshal = false.
Proof. vm_compute. done. Qed.

Lemma C9_rows_of_the_user_witness :
  ∃ user,
    (get (J := Demo.JSON_User) "users" 1 Demo.shop).1 = Ok user
    ∧ ∀ row,
        row ∈ [mkOrderWithDetails Demo.o1 Demo.u1 Demo.p1 Demo.c1] →
        order_UserID (od_Order row) = 1 ∧ od_User row = user.
Proof.
  destruct (C9_rows_of_the_user (JSON_User := Demo.JSON_User)
              (JSON_Order := Demo.JSON_Order)
              (JSON_Product := Demo.JSON_Product)
              (JSON_Category := Demo.JSON_Category) (V := Demo.any_text) Demo.handed_on Demo.shop 1
              [mkOrderWithDetails Demo.o1 Demo.u1 Demo.p1 Demo.c1])
    as (user & Huser & Hrows & _).
  { vm_compute. reflexivity. }
  exists user. split; [exact Huser | exact Hrows].
Defined.

(** ** Grouping *)

Lemma map_append_lookup {T} (k' k : Z) (x : T) (m : gmap Z (list T)) :
  default [] (map_append k' x m !! k) =
    default [] (m !! k) ++ (if decide (k' = k) then [x] else []).
Proof.
  unfold map_append. rewrite lookup_insert.
  destruct (decide (k' = k)) as [->|]; [done|]. by rewrite app_nil_r.
Qed.

Lemma foldl_map_append {T} (key : T → option Z) (xs : list T) (k : Z) :
  ∀ m : gmap Z (list T),
    default [] (foldl (λ m x, match key x with
                              | Some k' => map_append k' x m
                              | None => m
                              end) m xs !! k)
    = default [] (m !! k) ++ filter (λ x, key x = Some k) xs.
Proof.
  induction xs as [|x xs IH]; intros m; simpl.
  { by rewrite app_nil_r. }
  rewrite IH, filter_cons. destruct (key x) as [k'|].
  - rewrite map_append_lookup, <-app_assoc.
    destruct (decide (k' = k)) as [->|Hne].
    + by rewrite decide_True.
    + rewrite decide_False; [done|]. congruence.
  - by rewrite decide_False.
Qed.

Lemma usersByCompany_lookup (users : list User) (company : Company) :
  default [] (usersByCompany users !! company_ID company)
  = users_of_company users company.
Proof.
  unfold usersByCompany, users_of_company.
  etrans; [exact (foldl_map_append (λ user, Some (user_CompanyID user))
                    users (company_ID company) ∅)|].
  rewrite lookup_empty. simpl.
  apply list_filter_iff. intros user. split; congruence.
Qed.

Lemma attribute_order_eq (order : Order) (users : list User) m :
  attribute_order order users m =
    match order_company users order with
    | Some cid => map_append cid order m
    | None => m
    end.
Proof.
  unfold order_company. induction users as [|user users IH]; simpl; [done|].
  rewrite filter_cons.
  destruct (Z.eqb_spec (user_ID user) (order_UserID order)) as [Heq|Hne].
  - by rewrite decide_True.
  - by rewrite decide_False.
Qed.

Lemma ordersByCompany_lookup users orders (company : Company) :
  default [] (ordersByCompany users orders !! company_ID company)
  = orders_of_company users orders company.
Proof.
  unfold ordersByCompany, orders_of_company.
  rewrite (foldl_ext _ (λ m order, match order_company users order with
                                   | Some k' => map_append k' order m
                                   | None => m
                                   end)) by (intros; apply attribute_order_eq).
  by rewrite foldl_map_append, lookup_empty.
Qed.

Lemma company_stats_eq users orders company :
  company_stats users orders company =
    mkCompanyStats company
      (Z.of_nat (length (users_of_company users company)))
      (Z.of_nat (length (orders_of_company users orders company)))
      (Float64.sum (order_Amount <$> orders_of_company users orders company)).
Proof.
  unfold company_stats.
  rewrite usersByCompany_lookup, ordersByCompany_lookup.
  f_equal. unfold Float64.sum. by rewrite foldl_fmap.
Qed.

Lemma foldl_snoc_fmap {A B} (f : A → B) (xs : list A) : ∀ acc,
  foldl (λ acc x, acc ++ [f x]) acc xs = acc ++ (f <$> xs).
Proof.
  induction xs as [|x xs IH]; intros acc; simpl.
  { by rewrite app_nil_r. }
  by rewrite IH, <-app_assoc.
Qed.

Section Stats.
Context {JSON_User : JSON User} {JSON_Company : JSON Company}
        {JSON_Order : JSON Order} {JSON_Product : JSON Product}
        {JSON_Category : JSON Category} {V : Valid}.
Variable lent : Lent.

Lemma GetCompanyStats_eq s :
  GetCompanyStats lent s =
    (match (list_ (T := Company) lent "companies" s).1 with
     | Err err => ([], Some err)
     | Ok companies =>
         match (list_ (T := User) lent "users" s).1 with
         | Err err => ([], Some err)
         | Ok users =>
             match (list_ (T := Order) lent "orders" s).1 with
             | Err err => ([], Some err)
             | Ok orders => (company_stats users orders <$> companies, None)
             end
         end
     end, s).
Proof.
  unfold GetCompanyStats. rewrite bind_apply.
  rewrite (read_only_apply (list_ lent "companies") s) by apply read_only_list.
  cbn [fst snd]. destruct (list_ lent "companies" s).1 as [companies|err]; [|done].
  rewrite bind_apply.
  rewrite (read_only_apply (list_ lent "users") s) by apply read_only_list.
  cbn [fst snd]. destruct (list_ lent "users" s).1 as [users|err]; [|done].
  rewrite bind_apply.
  rewrite (read_only_apply (list_ lent "orders") s) by apply read_only_list.
  cbn [fst snd]. destruct (list_ lent "orders" s).1 as [orders|err]; [|done].
  rewrite ret_apply. by rewrite foldl_snoc_fmap.
Qed.
End Stats.

(** C4 at a failing input. Two companies and 102 users are created in
    turn on an empty store, user 10 of company 2 and the others of
    company 1: one stored user references company 2 and 101 reference
    company 1. [GetCompanyStats] lists user 99 in the place of user 10:
    its row of company 2 counts no user, and that of company 1 counts
    102. *)
Lemma C4_stored_user_not_counted :
  (get (J := Demo.JSON_user_pair) "users" 10 Demo.crowd).1
    = Ok (mkUser 10 "" "" 2 0)
  ∧ length
      (filter (λ kvp,
         user_CompanyID <$> unmarshal (JSON := Demo.JSON_user_pair) kvp.2
         = Some 2)
         (txn_scan (entity_prefix "users") (kv (db Demo.crowd)))) = 1%nat
  ∧ length
      (filter (λ kvp,
         user_CompanyID <$> unmarshal (JSON := Demo.JSON_user_pair) kvp.2
         = Some 1)
         (txn_scan (entity_prefix "users") (kv (db Demo.crowd)))) = 101%nat
  ∧ (GetCompanyStats (JSON_User := Demo.JSON_user_pair)
       (JSON_Company := Demo.JSON_company_id)
       (JSON_Order := Demo.JSON_no_order) (V := Demo.numbers)
       Demo.handed_on Demo.crowd).1
    = ([mkCompanyStats (mkCompany 1 "" "" 0) 102 0 Float64.zero;
        mkCompanyStats (mkCompany 2 "" "" 0) 0 0 Float64.zero], None).
Proof. repeat split; vm_compute; reflexivity. Qed.

(** X18. When the three listings succeed, [GetCompanyStats] returns one
    row per listed company, in listing order; the row of a company carries
    the number of listed users that reference it, the number of listed
    orders attributed to it through the first listed user of each order,
    and the sum of the amounts of those orders, accumulated in listing
    order; a company without such users and orders has the row 0, 0, 0.
    A listing of a kind with no more than [PrefetchSize] keys at or after
    its prefix is that of the stored records, decoded in key order. *)
Theorem X18_company_stats {JSON_User : JSON User} {JSON_Company : JSON Company}
    {JSON_Order : JSON Order} {V : Valid} (lent : Lent) (s : BadgerService)
    (companies : list Company) (users : list User) (orders : list Order) :
  (list_ (T := Company) lent "companies" s).1 = Ok companies →
  (list_ (T := User) lent "users" s).1 = Ok users →
  (list_ (T := Order) lent "orders" s).1 = Ok orders →
  (GetCompanyStats lent s).1
    = (company_stats users orders <$> companies, None)
  ∧ (∀ company,
       company_stats users orders company =
         mkCompanyStats company
           (Z.of_nat (length (users_of_company users company)))
           (Z.of_nat (length (orders_of_company users orders company)))
           (Float64.sum
              (order_Amount <$> orders_of_company users orders company)))
  ∧ (∀ company,
       users_of_company users company = [] →
       orders_of_company users orders company = [] →
       company_stats users orders company =
         mkCompanyStats company 0 0 Float64.zero)
  ∧ (within_prefetch "companies" (kv (db s)) →
     Forall2 (λ kvp company, unmarshal kvp.2 = Some company)
       (txn_scan (entity_prefix "companies") (kv (db s))) companies)
  ∧ (within_prefetch "users" (kv (db s)) →
     Forall2 (λ kvp user, unmarshal kvp.2 = Some user)
       (txn_scan (entity_prefix "users") (kv (db s))) users)
  ∧ (within_prefetch "orders" (kv (db s)) →
     Forall2 (λ kvp order, unmarshal kvp.2 = Some order)
       (txn_scan (entity_prefix "orders") (kv (db s))) orders).
Proof.
  intros Hcompanies Husers Horders.
  split; [by rewrite GetCompanyStats_eq, Hcompanies, Husers, Horders|].
  split; [intros company; apply company_stats_eq|].
  split.
  { intros company Hu Ho. by rewrite company_stats_eq, Hu, Ho. }
  repeat split; intros Hin.
  - rewrite list_within_prefetch in Hcompanies by done.
    apply decode_items_Ok in Hcompanies as [_ Hall].
    by apply Forall2_fmap_l in Hall.
  - rewrite list_within_prefetch in Husers by done.
    apply decode_items_Ok in Husers as [_ Hall].
    by apply Forall2_fmap_l in Hall.
  - rewrite list_within_prefetch in Horders by done.
    apply decode_items_Ok in Horders as [_ Hall].
    by apply Forall2_fmap_l in Hall.
Qed.

Lemma X18_company_stats_witness :
  (GetCompanyStats (JSON_User := Demo.JSON_User)
     (JSON_Company := Demo.JSON_Company) (JSON_Order := Demo.JSON_Order)
     (V := Demo.any_text) Demo.handed_on Demo.shop).1
  = ([mkCompanyStats Demo.companyA 1 2 (Float64.of_Z 15);
      mkCompanyStats Demo.companyB 1 1 (Float64.of_Z 7)], None).
Proof.
  destruct (X18_company_stats (JSON_User := Demo.JSON_User)
              (JSON_Company := Demo.JSON_Company)
              (JSON_Order := Demo.JSON_Order) (V := Demo.any_text)
              Demo.handed_on Demo.shop [Demo.companyA; Demo.companyB]
              [Demo.u1; Demo.u2; Demo.u3]
              [Demo.o1; Demo.o2; Demo.o3; Demo.o4]) as [H _].
  - vm_compute. reflexivity.
  - vm_compute. reflexivity.
  - vm_compute. reflexivity.
  - rewrite H. vm_compute. reflexivity.
Defined.

(** ** The queries only read *)

Section ReadOnly.
Context {JSON_User : JSON User} {JSON_Company : JSON Company}
        {JSON_Order : JSON Order} {JSON_Product : JSON Product}
        {JSON_Category : JSON Category} {V : Valid}.
Variable lent : Lent.

Lemma read_only_GetOrdersWithDetails : read_only (GetOrdersWithDetails lent).
Proof.
  unfold GetOrdersWithDetails.
  apply read_only_bind; [apply read_only_list|].
  intros [orders|err]; [|apply read_only_ret].
  apply read_only_bind; [|intros; apply read_only_ret].
  apply read_only_forM. intros results order.
  apply read_only_bind; [apply read_only_get|].
  intros [user|err]; [|apply read_only_ret].
  apply read_only_bind; [apply read_only_get|].
  intros [product|err]; [|apply read_only_ret].
  apply read_only_bind; [apply read_only_get|].
  intros [category|err]; apply read_only_ret.
Qed.

Lemma read_only_GetTopSellingProductsByCategory map_range sort_Slice :
  read_only (GetTopSellingProductsByCategory lent map_range sort_Slice).
Proof.
  unfold GetTopSellingProductsByCategory.
  apply read_only_bind; [apply read_only_list|].
  intros [orders|err]; [|apply read_only_ret].
  apply read_only_bind; [apply read_only_list|].
  intros [products|err]; [|apply read_only_ret].
  apply read_only_bind; [apply read_only_list|].
  intros [categories|err]; apply read_only_ret.
Qed.

(** C8. None of the five queries changes the service: the store (its
    pairs and what it is going to do with later transactions) and the
    in-memory counters after the query are those before it. *)
Theorem C8_queries_read_only (s : BadgerService) :
  (GetUsersWithCompanies lent s).2 = s
  ∧ (GetOrdersWithDetails lent s).2 = s
  ∧ (GetCompanyStats lent s).2 = s
  ∧ (∀ userID, (GetUserOrdersWithProducts lent userID s).2 = s)
  ∧ (∀ map_range sort_Slice,
       (GetTopSellingProductsByCategory lent map_range sort_Slice s).2 = s).
Proof.
  split; [by rewrite GetUsersWithCompanies_eq|].
  split; [apply read_only_GetOrdersWithDetails|].
  split; [by rewrite GetCompanyStats_eq|].
  split; [intros userID; by rewrite GetUserOrdersWithProducts_eq|].
  intros map_range sort_Slice.
  apply read_only_GetTopSellingProductsByCategory.
Qed.
End ReadOnly.

(** ** Floating-point sums and comparisons *)

Section Rounding.
Variables prec emax : Z.








End Rounding.








(** ** Product statistics *)

(** A product sits in the lookup map under its own identifier. *)
Lemma productMapOf_lookup (products : list Product) (pid : Z) (p : Product) :
  productMapOf products !! pid = Some p → product_ID p = pid ∧ p ∈ products.
Proof.
  unfold productMapOf.
  assert (∀ m : gmap Z Product,
    (∀ k q, m !! k = Some q → product_ID q = k ∧ q ∈ products) →
    ∀ l, l ⊆ products →
    foldl (λ m product, <[product_ID product := product]> m) m l !! pid = Some p →
    product_ID p = pid ∧ p ∈ products) as Hgen.
  { intros m Hm l. revert m Hm.
    induction l as [|q l IH]; intros m Hm Hl; simpl; [apply Hm|].
    apply IH.
    - intros k q'. rewrite lookup_insert.
      destruct (decide (product_ID q = k)) as [<-|]; [|apply Hm].
      intros [= <-]. split; [done|]. apply Hl. by left.
    - intros x Hx. apply Hl. by right. }
  apply (Hgen ∅); [|done]. intros k q. by rewrite lookup_empty.
Qed.

Lemma productStatsOf_snoc productMap orders order :
  productStatsOf productMap (orders ++ [order]) =
    add_order productMap (productStatsOf productMap orders) order.
Proof. unfold productStatsOf. by rewrite foldl_app. Qed.

Lemma orders_of_product_snoc pid orders order :
  orders_of_product pid (orders ++ [order]) =
    orders_of_product pid orders ++
      (if decide (order_ProductID order = pid) then [order] else []).
Proof.
  unfold orders_of_product. rewrite filter_app, filter_cons, filter_nil.
  by destruct (decide (order_ProductID order = pid)).
Qed.

Lemma sum_snoc (xs : list spec_float) (x : spec_float) :
  Float64.sum (xs ++ [x]) = Float64.add (Float64.sum xs) x.
Proof. unfold Float64.sum. by rewrite foldl_app. Qed.

(** The statistics hold an entry exactly for the known products that have
    an order. *)
Lemma productStatsOf_lookup (productMap : gmap Z Product) orders pid :
  (∀ k p, productMap !! k = Some p → product_ID p = k) →
  productStatsOf productMap orders !! pid =
    match productMap !! pid with
    | Some product =>
        if decide (orders_of_product pid orders = []) then None
        else Some (product_entry orders product)
    | None => None
    end.
Proof.
  intros Hkeys. induction orders as [|order orders IH] using rev_ind.
  { unfold productStatsOf. simpl. rewrite lookup_empty.
    by destruct (productMap !! pid). }
  rewrite productStatsOf_snoc, orders_of_product_snoc.
  assert (∀ q, product_ID q = pid →
            product_entry (orders ++ [order]) q =
              mkProductStats q
                (Z.of_nat (length (orders_of_product pid (orders ++ [order]))))
                (Float64.sum (order_Amount <$>
                   orders_of_product pid (orders ++ [order])))) as Hentry.
  { intros q <-. done. }
  destruct (decide (order_ProductID order = pid)) as [Heq|Hne].
  - unfold add_order. rewrite Heq.
    destruct (productMap !! pid) as [product|] eqn:Hproduct;
      [|rewrite IH; reflexivity].
    rewrite (Hkeys _ _ Hproduct), lookup_insert_eq, IH.
    rewrite (decide_False (P := orders_of_product pid orders ++ [order] = []))
      by (by destruct (orders_of_product pid orders)).
    rewrite Hentry by eauto.
    rewrite orders_of_product_snoc.
    rewrite (decide_True (P := order_ProductID order = pid)) by done.
    rewrite length_app, fmap_app, list_fmap_singleton, sum_snoc. simpl.
    destruct (decide (orders_of_product pid orders = [])) as [Hnil|Hcons].
    + by rewrite Hnil.
    + unfold product_entry. rewrite (Hkeys _ _ Hproduct). simpl.
      do 2 f_equal. lia.
  - rewrite app_nil_r.
    assert (productStatsOf productMap orders !! pid =
            add_order productMap (productStatsOf productMap orders) order !! pid)
      as <-.
    { unfold add_order.
      destruct (productMap !! order_ProductID order) as [product|] eqn:Hp;
        [|done].
      rewrite lookup_insert_ne; [done|]. by rewrite (Hkeys _ _ Hp). }
    rewrite IH. destruct (productMap !! pid) as [q|] eqn:Hq; [|done].
    destruct (decide (orders_of_product pid orders = [])); [done|].
    f_equal. rewrite Hentry by eauto.
    rewrite orders_of_product_snoc.
    rewrite (decide_False (P := order_ProductID order = pid)), app_nil_r by done.
    unfold product_entry. by rewrite (Hkeys _ _ Hq).
Qed.

Lemma productMapOf_keys products k p :
  productMapOf products !! k = Some p → product_ID p = k.
Proof. intros H. by apply productMapOf_lookup in H as [? _]. Qed.


(** ** Grouping by category *)

Lemma foldl_group `{Countable K} {T V} (key : T → K) (f : T → V)
    (xs : list T) (k : K) : ∀ m : gmap K (list V),
  default [] (foldl (λ m x, <[key x := default [] (m !! key x) ++ [f x]]> m)
                m xs !! k)
  = default [] (m !! k) ++ (f <$> filter (λ x, key x = k) xs).
Proof.
  induction xs as [|x xs IH]; intros m; simpl.
  { by rewrite app_nil_r. }
  rewrite IH, filter_cons, lookup_insert.
  destruct (decide (key x = k)) as [<-|Hne]; simpl.
  - by rewrite <-app_assoc.
  - done.
Qed.

Lemma group_by_category_lookup map_range categoryMap productStats g :
  default [] (group_by_category map_range categoryMap productStats !! g)
  = (filter (λ kstats, categoryNameOf categoryMap kstats.2 = g)
       (map_range productStats)).*2.
Proof.
  unfold group_by_category.
  etrans; [apply (foldl_group
                    (λ kstats : Z * ProductStats,
                       categoryNameOf categoryMap kstats.2)
                    (λ kstats : Z * ProductStats,
                       mkProductStats (ps_Product kstats.2)
                         (ps_TotalOrders kstats.2) (ps_TotalRevenue kstats.2)))|].
  rewrite lookup_empty. simpl. apply list_fmap_ext.
  intros _ [k []] _. done.
Qed.





(** ** Top selling products *)





Section TopSellingFacts.
Context {JSON_Order : JSON Order} {JSON_Product : JSON Product}
        {JSON_Category : JSON Category} {V : Valid}.
Variable lent : Lent.
Variable map_range : gmap Z ProductStats → list (Z * ProductStats).
Variable sort_Slice :
  (ProductStats → ProductStats → bool) → list ProductStats → list ProductStats.
Hypothesis Hrange : map_range_spec map_range.
Hypothesis Hsort : sort_Slice_spec sort_Slice.

Lemma GetTopSellingProductsByCategory_eq s :
  GetTopSellingProductsByCategory lent map_range sort_Slice s =
    (match (list_ (T := Order) lent "orders" s).1 with
     | Err err => (∅, Some err)
     | Ok orders =>
         match (list_ (T := Product) lent "products" s).1 with
         | Err err => (∅, Some err)
         | Ok products =>
             match (list_ (T := Category) lent "categories" s).1 with
             | Err err => (∅, Some err)
             | Ok categories =>
                 (top_selling map_range sort_Slice orders products categories,
                  None)
             end
         end
     end, s).
Proof.
  unfold GetTopSellingProductsByCategory. rewrite bind_apply.
  rewrite (read_only_apply (list_ lent "orders") s) by apply read_only_list.
  cbn [fst snd]. destruct (list_ lent "orders" s).1 as [orders|err]; [|done].
  rewrite bind_apply.
  rewrite (read_only_apply (list_ lent "products") s) by apply read_only_list.
  cbn [fst snd]. destruct (list_ lent "products" s).1 as [products|err]; [|done].
  rewrite bind_apply.
  rewrite (read_only_apply (list_ lent "categories") s) by apply read_only_list.
  cbn [fst snd]. by destruct (list_ lent "categories" s).1 as [categories|err].
Qed.

(** A group of the result is a permutation of the entries of the
    statistics that carry its name. *)
Lemma top_selling_group orders products categories g :
  default [] (top_selling map_range sort_Slice orders products categories !! g)
  ≡ₚ (filter (λ kstats, categoryNameOf (categoryMapOf categories) kstats.2 = g)
        (map_to_list (productStatsOf (productMapOf products) orders))).*2.
Proof.
  unfold top_selling. rewrite lookup_fmap.
  rewrite <-(Hrange (productStatsOf (productMapOf products) orders)).
  rewrite <-group_by_category_lookup.
  destruct (group_by_category _ _ _ !! g) as [l|]; simpl; [|done].
  apply Hsort.
Qed.

Lemma categoryNameOf_entry categoryMap orders product :
  categoryNameOf categoryMap (product_entry orders product)
  = category_name_or_empty categoryMap product.
Proof.
  unfold categoryNameOf, category_name_or_empty, product_entry. simpl.
  by destruct (categoryMap !! product_CategoryID product).
Qed.

Lemma elem_of_top_selling orders products categories g x :
  x ∈ default []
        (top_selling map_range sort_Slice orders products categories !! g)
  ↔ ∃ product,
      productMapOf products !! product_ID product = Some product
      ∧ orders_of_product (product_ID product) orders ≠ []
      ∧ x = product_entry orders product
      ∧ g = category_name_or_empty (categoryMapOf categories) product.
Proof.
  rewrite top_selling_group, list_elem_of_fmap. split.
  - intros ([pid st] & -> & [Hname Hin]%list_elem_of_filter). simpl in *.
    apply elem_of_map_to_list in Hin.
    rewrite productStatsOf_lookup in Hin by apply productMapOf_keys.
    destruct (productMapOf products !! pid) as [product|] eqn:Hp; [|done].
    destruct (decide (orders_of_product pid orders = [])); [done|].
    injection Hin as <-. exists product.
    rewrite (productMapOf_keys _ _ _ Hp).
    by rewrite <-Hname, categoryNameOf_entry.
  - intros (product & Hp & Hords & -> & ->).
    exists (product_ID product, product_entry orders product).
    split; [done|]. apply list_elem_of_filter. split.
    + simpl. apply categoryNameOf_entry.
    + apply elem_of_map_to_list.
      rewrite productStatsOf_lookup by apply productMapOf_keys.
      by rewrite Hp, decide_False.
Qed.

Lemma top_selling_NoDup orders products categories g :
  NoDup (default []
           (top_selling map_range sort_Slice orders products categories !! g)).
Proof.
  rewrite top_selling_group. apply NoDup_fmap_2_strong.
  - intros [k1 x1] [k2 x2] [_ H1]%list_elem_of_filter
      [_ H2]%list_elem_of_filter Heq. simpl in Heq. subst x2.
    apply elem_of_map_to_list in H1, H2.
    rewrite productStatsOf_lookup in H1, H2 by apply productMapOf_keys.
    destruct (productMapOf products !! k1) as [p1|] eqn:Hp1; [|done].
    destruct (productMapOf products !! k2) as [p2|] eqn:Hp2; [|done].
    destruct (decide (orders_of_product k1 orders = [])); [done|].
    destruct (decide (orders_of_product k2 orders = [])); [done|].
    injection H1 as <-.
    apply (f_equal (fmap ps_Product)) in H2. simpl in H2. injection H2 as ->.
    f_equal. apply productMapOf_keys in Hp1, Hp2. congruence.
  - apply NoDup_filter, NoDup_map_to_list.
Qed.



End TopSellingFacts.

(** ** An insertion sort meets what is asked of [sort.Slice] *)

Lemma insert_by_perm {A} (less : A → A → bool) x l :
  Demo.insert_by less x l ≡ₚ x :: l.
Proof.
  induction l as [|y l IH]; simpl; [done|].
  destruct (less x y); [done|]. by rewrite IH, Permutation_swap.
Qed.

Lemma insertion_sort_perm {A} (less : A → A → bool) l :
  Demo.insertion_sort less l ≡ₚ l.
Proof.
  induction l as [|x l IH]; simpl; [done|].
  by rewrite insert_by_perm, IH.
Qed.

Lemma strict_weak_on_tail {A} (less : A → A → bool) x l :
  strict_weak_on less (x :: l) → strict_weak_on less l.
Proof.
  intros (Hirr & Htrans & Hneg). repeat split.
  - intros y Hy. apply Hirr. by right.
  - intros a b c Ha Hb Hc. apply Htrans; by right.
  - intros a b c Ha Hb Hc. apply Hneg; by right.
Qed.

Lemma insert_by_sorted {A} (less : A → A → bool) x l :
  strict_weak_on less (x :: l) →
  sorted_by less l → sorted_by less (Demo.insert_by less x l).
Proof.
  unfold sorted_by. intros Hswo Hl. induction Hl as [|y l Hl IH Hy]; simpl.
  { repeat constructor. }
  destruct Hswo as (Hirr & Htrans & Hneg).
  destruct (less x y) eqn:Hxy.
  - constructor; [by constructor|].
    assert (less y x = false) as Hyx.
    { apply not_true_is_false. intros Hyx.
      assert (less x x = true) as Hxx.
      { apply (Htrans x y x); try done; [by left | by right; left | by left]. }
      rewrite Hirr in Hxx; [done | by left]. }
    constructor; [done|].
    rewrite Forall_forall in Hy |- *. intros z Hz.
    apply (Hneg z y x); [by do 2 right | by right; left | by left | |done].
    by apply Hy.
  - constructor.
    + apply IH. repeat split.
      * intros a Ha. apply Hirr.
        apply elem_of_cons in Ha as [->|Ha]; [by left | by do 2 right].
      * intros a b c Ha Hb Hc. apply Htrans.
        -- apply elem_of_cons in Ha as [->|Ha]; [by left | by do 2 right].
        -- apply elem_of_cons in Hb as [->|Hb]; [by left | by do 2 right].
        -- apply elem_of_cons in Hc as [->|Hc]; [by left | by do 2 right].
      * intros a b c Ha Hb Hc. apply Hneg.
        -- apply elem_of_cons in Ha as [->|Ha]; [by left | by do 2 right].
        -- apply elem_of_cons in Hb as [->|Hb]; [by left | by do 2 right].
        -- apply elem_of_cons in Hc as [->|Hc]; [by left | by do 2 right].
    + rewrite Forall_forall in Hy |- *. intros z Hz.
      rewrite insert_by_perm in Hz.
      apply elem_of_cons in Hz as [->|Hz]; [done | by apply Hy].
Qed.

Lemma insertion_sort_spec {A} : sort_Slice_spec (@Demo.insertion_sort A).
Proof.
  intros less l. split; [apply insertion_sort_perm|].
  induction l as [|x l IH]; intros Hswo; simpl; [constructor|].
  apply insert_by_sorted.
  - destruct Hswo as (Hirr & Htrans & Hneg). repeat split.
    + intros a Ha. apply Hirr. by rewrite insertion_sort_perm in Ha.
    + intros a b c Ha Hb Hc. rewrite insertion_sort_perm in Ha, Hb, Hc.
      by apply Htrans.
    + intros a b c Ha Hb Hc. rewrite insertion_sort_perm in Ha, Hb, Hc.
      by apply Hneg.
  - apply IH. by apply strict_weak_on_tail in Hswo.
Qed.


Lemma map_to_list_range {V} :
  map_range_spec (λ m : gmap Z V, map_to_list m).
Proof. by intros m. Qed.


(** * Further properties of the service *)

(** ** Record keys *)

Lemma string_prefix_app (p t : string) : String.prefix p (p +:+ t) = true.
Proof.
  induction p as [|a p IH]; [apply string_prefix_nil|].
  rewrite string_app_cons, string_prefix_cons. by rewrite decide_True.
Qed.

Lemma entity_key_prefix (entity : string) (id : Z) :
  String.prefix (entity_prefix entity) (entity_key entity id) = true.
Proof.
  unfold entity_prefix, entity_key.
  rewrite <-(string_app_assoc entity ":" (pretty id)). apply string_prefix_app.
Qed.

Lemma entity_key_inj (entity : string) (id id' : Z) :
  entity_key entity id = entity_key entity id' → id = id'.
Proof.
  unfold entity_key. intros Heq.
  apply (inj (String.append entity)) in Heq.
  apply (inj (String.append ":")) in Heq.
  by apply (inj pretty) in Heq.
Qed.

(** The prefix of one of the five kinds is extended by the keys of that
    kind only. *)
Lemma entity_prefix_other_kind (e e' : string) (id : Z) :
  e ∈ entities → e' ∈ entities → e ≠ e' →
  String.prefix (entity_prefix e') (entity_key e id) = false.
Proof.
  unfold entities. rewrite !elem_of_cons, !elem_of_nil.
  intros [->|[->|[->|[->|[->|[]]]]]] [->|[->|[->|[->|[->|[]]]]]] Hne;
    try done; reflexivity.
Qed.

(** X1. No two records share a key: for the five kinds of record, the key
    [kind:id] determines both the kind and the identifier. *)
Theorem X1_record_keys_distinct (e e' : string) (id id' : Z) :
  e ∈ entities → e' ∈ entities →
  entity_key e id = entity_key e' id' → e = e' ∧ id = id'.
Proof.
  intros He He' Heq. destruct (decide (e = e')) as [->|Hne].
  - split; [done|]. by apply entity_key_inj in Heq.
  - pose proof (entity_prefix_other_kind e e' id He He' Hne) as Hp.
    by rewrite Heq, entity_key_prefix in Hp.
Qed.

Lemma X1_record_keys_distinct_witness :
  entity_key "users" 12 = entity_key "users" (10 + 2)
  ∧ "users" = "users" ∧ 12 = 10 + 2.
Proof.
  split; [reflexivity|].
  apply (X1_record_keys_distinct "users" "users" 12 (10 + 2));
    [apply list_elem_of_here | apply list_elem_of_here | reflexivity].
Defined.

(** ** Writing and reading a record *)

Section Records.
Context {T : Type} {J : JSON T}.

Lemma create_eq (entity : string) (id : Z) (data : T) s :
  create entity id data s =
    match marshal data with
    | None => (Some ErrMarshal, s)
    | Some val =>
        ((commit (txn_set (entity_key entity id) val (kv (db s))) (db s)).1,
         mkService
           (commit (txn_set (entity_key entity id) val (kv (db s))) (db s)).2
           (counters s))
    end.
Proof.
  unfold create, Update. destruct (marshal data) as [val|]; [|done].
  by destruct (commit _ _).
Qed.

(** A commit installs the writes exactly when it reports no error. *)
Lemma commit_cases kv' d :
  ((commit kv' d).1 = None ∧ kv (commit kv' d).2 = kv')
  ∨ ((commit kv' d).1 = Some ErrTxn ∧ kv (commit kv' d).2 = kv d).
Proof. unfold commit. destruct (faults d) as [|[] fs]; simpl; auto. Qed.

Lemma create_other_keys (entity : string) (id : Z) (data : T) s k :
  k ≠ entity_key entity id →
  kv (db (create entity id data s).2) !! k = kv (db s) !! k.
Proof.
  intros Hk. rewrite create_eq. destruct (marshal data) as [val|]; [|done].
  cbn [snd db].
  destruct (commit_cases (txn_set (entity_key entity id) val (kv (db s)))
              (db s)) as [[_ ->]|[_ ->]]; [|done].
  unfold txn_set. by rewrite lookup_insert_ne.
Qed.

Lemma create_counters (entity : string) (id : Z) (data : T) s :
  counters (create entity id data s).2 = counters s.
Proof. rewrite create_eq. by destruct (marshal data). Qed.

Lemma create_failed (entity : string) (id : Z) (data : T) s err :
  (create entity id data s).1 = Some err →
  kv (db (create entity id data s).2) = kv (db s).
Proof.
  rewrite create_eq. destruct (marshal data) as [val|]; [|done].
  cbn [fst snd db].
  by destruct (commit_cases (txn_set (entity_key entity id) val (kv (db s)))
                 (db s)) as [[-> _]|[_ ->]].
Qed.

Lemma create_get (entity : string) (id : Z) (data : T) s :
  (create entity id data s).1 = None →
  round_trips J data →
  (get entity id (create entity id data s).2).1 = Ok data.
Proof.
  rewrite create_eq. intros Hok Hrt.
  destruct (marshal data) as [val|] eqn:Hval; [|done]. cbn [fst snd] in *.
  destruct (commit_cases (txn_set (entity_key entity id) val (kv (db s)))
              (db s)) as [[_ Hkv]|[Herr _]]; [|congruence].
  unfold get, View, txn_get. cbn [fst db]. rewrite Hkv.
  unfold txn_set. rewrite lookup_insert_eq. by rewrite (Hrt val).
Qed.

(** X2. What [create] stores, [get] returns: after a [create] that
    reports no error, [get] under the same kind and identifier gives the
    record back, whenever decoding undoes the encoding of that record. *)
Theorem X2_create_get_round_trip (entity : string) (id : Z) (data : T)
    (s : BadgerService) :
  (create entity id data s).1 = None →
  round_trips J data →
  (get entity id (create entity id data s).2).1 = Ok data.
Proof. apply create_get. Qed.

(** X3. [create] touches one key and no counter: the counters are as
    before, every key other than [kind:id] holds what it held, a
    [create] that reports an error leaves the whole store as it was (the
    error is the encoding error exactly when the record cannot be
    encoded), and a [create] that reports none leaves the encoded record
    under [kind:id]. *)
Theorem X3_create_writes_one_key (entity : string) (id : Z) (data : T)
    (s : BadgerService) :
  counters (create entity id data s).2 = counters s
  ∧ (∀ k, k ≠ entity_key entity id →
       kv (db (create entity id data s).2) !! k = kv (db s) !! k)
  ∧ (∀ err, (create entity id data s).1 = Some err →
       kv (db (create entity id data s).2) = kv (db s)
       ∧ (err = ErrMarshal ↔ marshal data = None))
  ∧ ((create entity id data s).1 = None →
       kv (db (create entity id data s).2) !! entity_key entity id
         = marshal data).
Proof.
  rewrite create_eq.
  destruct (marshal data) as [val|] eqn:Hval; cbn [fst snd db counters].
  - destruct (commit_cases (txn_set (entity_key entity id) val (kv (db s)))
                (db s)) as [[Herr Hkv]|[Herr Hkv]]; rewrite Herr, Hkv.
    + split; [done|]. split; [|split; [done|]].
      * intros k Hk. unfold txn_set. by rewrite lookup_insert_ne.
      * intros _. unfold txn_set. by rewrite lookup_insert_eq.
    + split; [done|]. split; [done|]. split; [|done].
      intros err [= <-]. split; [done|]. split; discriminate.
  - split; [done|]. split; [done|]. split; [|done].
    by intros err [= <-].
Qed.
End Records.

Lemma X2_create_get_round_trip_witness :
  (get (J := JSON_RawMessage) "users" 1
     (create (J := JSON_RawMessage) "users" 1 "[1]" Demo.working_service).2).1
  = Ok "[1]".
Proof.
  apply (X2_create_get_round_trip (J := JSON_RawMessage)).
  - reflexivity.
  - intros val Hval. symmetry. exact Hval.
Defined.

(** ** Listing *)

Lemma txn_scan_pairs_under p m : txn_scan p m ≡ₚ pairs_under p m.
Proof.
  rewrite txn_scan_filter. unfold pairs_under. by rewrite txn_iterator_perm.
Qed.

Lemma unmarshal_items_None {T} {J : JSON T} (items : list string) :
  unmarshal_items (T := T) items = None →
  ∃ val, val ∈ items ∧ unmarshal (T := T) val = None.
Proof.
  induction items as [|val items IH]; simpl; [done|].
  destruct (unmarshal val) as [x|] eqn:Hx.
  - destruct (unmarshal_items items); [done|]. intros _.
    destruct IH as (val' & Hin & Hnone); [done|].
    exists val'. split; [by right | done].
  - intros _. exists val. split; [by left | done].
Qed.

Lemma forallb_false {A} (f : A → bool) (l : list A) :
  forallb f l = false → ∃ x, x ∈ l ∧ f x = false.
Proof.
  induction l as [|x l IH]; simpl; [done|].
  destruct (f x) eqn:Hx; simpl.
  - intros (y & Hin & Hy)%IH. exists y. split; [by right | done].
  - intros _. exists x. split; [by left | done].
Qed.

Lemma forallb_true {A} (f : A → bool) (l : list A) :
  forallb f l = true → ∀ x, x ∈ l → f x = true.
Proof.
  induction l as [|y l IH]; simpl; intros Hall x Hx.
  { by apply elem_of_nil in Hx. }
  apply andb_prop in Hall as [Hy Hl].
  apply elem_of_cons in Hx as [->|Hx]; [done|]. by apply IH.
Qed.

Section Listing.
Context {T : Type} {J : JSON T} {V : Valid}.
Variable lent : Lent.

(** X4. A successful [list] has as many records as the store has keys
    under [kind:], and a store with no such key lists as the empty slice.
    A failing [list] reports the error of the encoding of the items or
    that of their decoding. When no more than [PrefetchSize] keys are at
    or after the prefix, the first means that some value stored under the
    prefix is not JSON, and the second that all of them are and one does
    not decode. *)
Theorem X4_list_counts_and_fails (entity : string) (s : BadgerService) :
  (∀ xs : list T,
     (list_ lent entity s).1 = Ok xs →
     length xs = length (pairs_under (entity_prefix entity) (kv (db s))))
  ∧ (pairs_under (entity_prefix entity) (kv (db s)) = [] →
     (list_ (T := T) lent entity s).1 = Ok [])
  ∧ (∀ err,
       (list_ (T := T) lent entity s).1 = Err err →
       err = ErrMarshal ∨ err = ErrUnmarshal)
  ∧ (within_prefetch entity (kv (db s)) →
     ∀ err,
       (list_ (T := T) lent entity s).1 = Err err →
       ∃ k val,
         kv (db s) !! k = Some val
         ∧ String.prefix (entity_prefix entity) k = true
         ∧ match err with
           | ErrMarshal => json_Valid val = false
           | _ =>
               unmarshal (T := T) val = None
               ∧ ∀ k' val',
                   kv (db s) !! k' = Some val' →
                   String.prefix (entity_prefix entity) k' = true →
                   json_Valid val' = true
           end).
Proof.
  split; [|split; [|split]].
  - intros xs Hxs. rewrite list_eq in Hxs.
    apply decode_items_length in Hxs.
    by rewrite Hxs, length_kept, length_fmap, txn_scan_pairs_under.
  - intros Hnone. rewrite list_eq.
    assert (txn_scan (entity_prefix entity) (kv (db s)) = []) as ->.
    { apply Permutation_nil_r. by rewrite txn_scan_pairs_under, Hnone. }
    unfold kept. by destruct (decide _).
  - intros err. rewrite list_eq. unfold decode_items.
    destruct (forallb _ _); [|intros [= <-]; by left].
    destruct (unmarshal_items _); [done|]. intros [= <-]. by right.
  - intros Hin err. rewrite list_within_prefetch by done.
    unfold decode_items.
    destruct (forallb _ _) eqn:Hvalid.
    + destruct (unmarshal_items _) as [xs'|] eqn:Hitems; [done|].
      intros [= <-].
      apply unmarshal_items_None in Hitems as (val & Hval & Hnone).
      apply list_elem_of_fmap in Hval as ([k val'] & -> & Hval).
      apply elem_of_txn_scan in Hval as [Hk Hp].
      exists k, val'. split; [done|]. split; [done|]. split; [done|].
      intros k' val'' Hk' Hp'.
      apply (forallb_true _ _ Hvalid).
      apply list_elem_of_fmap. exists (k', val'').
      split; [done|]. by apply elem_of_txn_scan.
    + intros [= <-].
      apply forallb_false in Hvalid as (val & Hval & Hbad).
      apply list_elem_of_fmap in Hval as ([k val'] & -> & Hval).
      apply elem_of_txn_scan in Hval as [Hk Hp]. by exists k, val'.
Qed.

(** X5. When no more than [PrefetchSize] keys are at or after the prefix
    of the kind, a record that [get] finds is among those that [list]
    returns, when both succeed. *)
Theorem X5_get_within_list (entity : string) (id : Z) (s : BadgerService)
    (x : T) (xs : list T) :
  within_prefetch entity (kv (db s)) →
  (get entity id s).1 = Ok x →
  (list_ lent entity s).1 = Ok xs →
  x ∈ xs.
Proof.
  intros Hin. rewrite list_within_prefetch by done.
  unfold get, View, txn_get. cbn [fst].
  destruct (kv (db s) !! entity_key entity id) as [val|] eqn:Hval; [|done].
  destruct (unmarshal val) as [x'|] eqn:Hx; [|done]. intros [= <-].
  intros [_ Hitems]%decode_items_Ok.
  assert (val ∈ (txn_scan (entity_prefix entity) (kv (db s))).*2) as Hval'.
  { apply list_elem_of_fmap. exists (entity_key entity id, val).
    split; [done|]. apply elem_of_txn_scan. split; [done|].
    apply entity_key_prefix. }
  apply list_elem_of_lookup in Hval' as [i Hi].
  destruct (Forall2_lookup_l _ _ _ _ _ Hitems Hi) as (x'' & Hx'' & Hdec).
  apply list_elem_of_lookup. exists i. congruence.
Qed.
End Listing.

Lemma X5_get_within_list_witness : Demo.u1 ∈ [Demo.u1; Demo.u2; Demo.u3].
Proof.
  apply (X5_get_within_list (J := Demo.JSON_User) (V := Demo.any_text)
           Demo.handed_on "users" 1 Demo.shop).
  - unfold within_prefetch. vm_compute. lia.
  - vm_compute. reflexivity.
  - vm_compute. reflexivity.
Defined.

(** X6. The kinds do not interfere, within the prefetch: a [create] under
    one of the five kinds does not change what [get] returns for another
    of them, nor what [list] returns for it when, before and after the
    [create], no more than [PrefetchSize] keys are at or after the prefix
    of that other kind; whatever type the results decode to. *)
Theorem X6_kinds_are_isolated {T : Type} {J : JSON T} {V : Valid}
    (lent lent' : Lent) (e e' : string) (id : Z) (data : T)
    (s : BadgerService) :
  e ∈ entities → e' ∈ entities → e ≠ e' →
  (∀ (U : Type) (JU : JSON U),
     within_prefetch e' (kv (db s)) →
     within_prefetch e' (kv (db (create e id data s).2)) →
     (list_ (T := U) lent' e' (create e id data s).2).1
       = (list_ (T := U) lent e' s).1)
  ∧ (∀ (U : Type) (JU : JSON U) id',
       (get (T := U) e' id' (create e id data s).2).1
         = (get (T := U) e' id' s).1).
Proof.
  intros He He' Hne.
  pose proof (create_other_keys e id data s) as Hframe.
  split.
  - intros U JU Hin Hin'. rewrite !list_within_prefetch by done.
    rewrite (txn_scan_ext _ _ (kv (db s))); [done|].
    intros k Hp. apply Hframe. intros ->.
    by rewrite entity_prefix_other_kind in Hp.
  - intros U JU id'. unfold get, View, txn_get. cbn [fst].
    rewrite Hframe; [done|]. intros Heq.
    pose proof (entity_prefix_other_kind e' e id' He' He (not_eq_sym Hne)) as Hp.
    by rewrite Heq, entity_key_prefix in Hp.
Qed.

Lemma X6_kinds_are_isolated_witness :
  (list_ (J := Demo.JSON_Order) (V := Demo.any_text) Demo.handed_on "orders"
     (create (J := JSON_RawMessage) "users" 4 "u1" Demo.shop).2).1
  = (list_ (J := Demo.JSON_Order) (V := Demo.any_text) Demo.handed_on
       "orders" Demo.shop).1.
Proof.
  destruct (X6_kinds_are_isolated (J := JSON_RawMessage)
              (V := Demo.any_text) Demo.handed_on Demo.handed_on
              "users" "orders" 4 "u1" Demo.shop) as [Hlist _].
  - repeat constructor.
  - repeat constructor.
  - discriminate.
  - apply Hlist.
    + unfold within_prefetch. vm_compute. lia.
    + unfold within_prefetch. vm_compute. lia.
Defined.

(** X19. Counter keys are apart from record keys: a scan under the prefix
    of one of the five kinds never yields a counter key, no record key of
    these kinds is a counter key, and an allocation does not change what
    [get] returns for them, nor what [list] returns when, before and
    after the allocation, no more than [PrefetchSize] keys are at or
    after the prefix of the kind. *)
Theorem X19_counters_apart {JSON_int64 : JSON Z} (e entity : string) :
  e ∈ entities →
  (∀ m k v, (k, v) ∈ txn_scan (entity_prefix e) m → k ≠ counter_key entity)
  ∧ (∀ id, entity_key e id ≠ counter_key entity)
  ∧ (∀ (T : Type) (J : JSON T) (V : Valid) (lent lent' : Lent) s,
       within_prefetch e (kv (db s)) →
       within_prefetch e (kv (db (getNextID entity s).2)) →
       (list_ (T := T) lent' e (getNextID entity s).2).1
         = (list_ (T := T) lent e s).1)
  ∧ (∀ (T : Type) (J : JSON T) s id,
       (get (T := T) e id (getNextID entity s).2).1 = (get (T := T) e id s).1).
Proof.
  intros He. repeat split.
  - intros m k v [_ Hp]%elem_of_txn_scan ->.
    by rewrite counter_key_no_prefix in Hp.
  - intros id. by apply entity_key_not_counter.
  - intros T J V lent lent' s Hin Hin'.
    rewrite !list_within_prefetch by done.
    rewrite (txn_scan_ext _ _ (kv (db s))); [done|].
    intros k Hp. apply getNextID_kv. intros ->.
    by rewrite counter_key_no_prefix in Hp.
  - intros T J s id. unfold get, View, txn_get. cbn [fst].
    rewrite getNextID_kv; [done|]. by apply entity_key_not_counter.
Qed.

Lemma X19_counters_apart_witness :
  entity_key "users" 5 ≠ counter_key "users"
  ∧ (list_ (J := Demo.JSON_User) (V := Demo.any_text) Demo.handed_on "users"
       (getNextID (JSON_int64 := Demo.JSON_int64) "users" Demo.shop).2).1
    = (list_ (J := Demo.JSON_User) (V := Demo.any_text) Demo.handed_on
         "users" Demo.shop).1.
Proof.
  destruct (X19_counters_apart (JSON_int64 := Demo.JSON_int64)
              "users" "users") as (_ & H2 & H3 & _).
  { unfold entities. apply list_elem_of_here. }
  split; [apply H2|]. apply H3.
  - unfold within_prefetch. vm_compute. lia.
  - unfold within_prefetch. vm_compute. lia.
Defined.

(** ** Creating entities *)

Section AllocateAndCreate.
Context {JSON_int64 : JSON Z} {T : Type} {J : JSON T}.

(** The shape shared by the [Create...] methods: allocate, fill in, write. *)
Lemma alloc_create_spec (entity : string) (fill : Z → T) (s : BadgerService) :
  entity ∈ entities →
  let id := Int64.incr (counter_of s entity) in
  let r := (id ← getNextID entity;
            err ← create entity id (fill id);
            mret (fill id, err)) s in
  r.1.1 = fill id
  ∧ counter_of r.2 entity = id
  ∧ (r.1.2 = None → round_trips J (fill id) →
       (get entity id r.2).1 = Ok (fill id))
  ∧ (∀ err, r.1.2 = Some err →
       kv (db r.2) !! entity_key entity id
         = kv (db s) !! entity_key entity id).
Proof.
  intros He id r. unfold r. rewrite !bind_apply, ret_apply.
  rewrite getNextID_result. fold id. cbn [fst snd].
  split; [done|]. split; [|split].
  - unfold counter_of. rewrite create_counters.
    pose proof (getNextID_counter entity entity s) as Hc.
    unfold counter_of in Hc. rewrite Hc. by rewrite decide_True.
  - apply create_get.
  - intros err Herr. rewrite (create_failed _ _ _ _ _ Herr).
    apply getNextID_kv. by apply entity_key_not_counter.
Qed.
End AllocateAndCreate.

Section Creating.
Context {JSON_int64 : JSON Z}
        {JSON_User : JSON User} {JSON_Company : JSON Company}
        {JSON_Order : JSON Order} {JSON_Product : JSON Product}
        {JSON_Category : JSON Category}.

(** X7. [CreateUser] returns the given user with the next identifier of
    the [users] counter and the creation time filled in, whether or not
    the write succeeds; the counter in memory then holds that identifier;
    when no error is reported (and decoding undoes encoding) the user can
    be read back under it; when an error is reported the record key holds
    what it held before. *)
Theorem X7_CreateUser (now : Z) (user : User) (s : BadgerService) :
  let id := Int64.incr (counter_of s "users") in
  let created :=
    mkUser id (user_Name user) (user_Email user) (user_CompanyID user) now in
  let r := CreateUser now user s in
  r.1.1 = created
  ∧ counter_of r.2 "users" = id
  ∧ (r.1.2 = None → round_trips JSON_User created →
       (get "users" id r.2).1 = Ok created)
  ∧ (∀ err, r.1.2 = Some err →
       kv (db r.2) !! entity_key "users" id
         = kv (db s) !! entity_key "users" id).
Proof.
  apply (alloc_create_spec "users"
           (λ id, mkUser id (user_Name user) (user_Email user)
                    (user_CompanyID user) now)).
  unfold entities. apply list_elem_of_here.
Qed.
End Creating.

Section CreatingOthers.
Context {JSON_int64 : JSON Z}
        {JSON_Company : JSON Company}
        {JSON_Order : JSON Order} {JSON_Product : JSON Product}
        {JSON_Category : JSON Category}.

(** X8. [CreateCompany], [CreateOrder], [CreateProduct] and
    [CreateCategory] each return their argument with the next identifier
    of their own counter filled in (and the creation time, for companies
    and orders), advance that counter to it, and on success store a
    record that [get] returns under that identifier, when decoding undoes
    the encoding of the record. *)
Theorem X8_Create_company_order_product_category (now : Z)
    (company : Company) (order : Order) (product : Product)
    (category : Category) (s : BadgerService) :
  (let id := Int64.incr (counter_of s "companies") in
   let r := CreateCompany now company s in
   r.1.1 = mkCompany id (company_Name company) (company_Industry company) now
   ∧ counter_of r.2 "companies" = id
   ∧ (r.1.2 = None → round_trips JSON_Company r.1.1 →
        (get "companies" id r.2).1 = Ok r.1.1))
  ∧ (let id := Int64.incr (counter_of s "orders") in
     let r := CreateOrder now order s in
     r.1.1 = mkOrder id (order_UserID order) (order_ProductID order)
               (order_Quantity order) (order_Amount order)
               (order_Status order) now
     ∧ counter_of r.2 "orders" = id
     ∧ (r.1.2 = None → round_trips JSON_Order r.1.1 →
          (get "orders" id r.2).1 = Ok r.1.1))
  ∧ (let id := Int64.incr (counter_of s "products") in
     let r := CreateProduct product s in
     r.1.1 = mkProduct id (product_Name product) (product_Price product)
               (product_CategoryID product) (product_CompanyID product)
               (product_Description product)
     ∧ counter_of r.2 "products" = id
     ∧ (r.1.2 = None → round_trips JSON_Product r.1.1 →
          (get "products" id r.2).1 = Ok r.1.1))
  ∧ (let id := Int64.incr (counter_of s "categories") in
     let r := CreateCategory category s in
     r.1.1 = mkCategory id (category_Name category)
     ∧ counter_of r.2 "categories" = id
     ∧ (r.1.2 = None → round_trips JSON_Category r.1.1 →
          (get "categories" id r.2).1 = Ok r.1.1)).
Proof.
  assert (∀ e, e ∈ ["companies"; "orders"; "products"; "categories"] →
               e ∈ entities) as Hin.
  { intros e He. unfold entities. by right. }
  split; [|split; [|split]].
  - destruct (alloc_create_spec "companies"
                (λ id, mkCompany id (company_Name company)
                         (company_Industry company) now) s)
      as (H1 & H2 & H3 & _).
    { apply Hin. rewrite !elem_of_cons. auto. }
    split; [exact H1|]. split; [exact H2|]. intros Hok Hrt.
    etrans; [apply H3; [exact Hok|]|].
    + rewrite <-H1. exact Hrt.
    + f_equal. symmetry. exact H1.
  - destruct (alloc_create_spec "orders"
                (λ id, mkOrder id (order_UserID order) (order_ProductID order)
                         (order_Quantity order) (order_Amount order)
                         (order_Status order) now) s)
      as (H1 & H2 & H3 & _).
    { apply Hin. rewrite !elem_of_cons. auto. }
    split; [exact H1|]. split; [exact H2|]. intros Hok Hrt.
    etrans; [apply H3; [exact Hok|]|].
    + rewrite <-H1. exact Hrt.
    + f_equal. symmetry. exact H1.
  - destruct (alloc_create_spec "products"
                (λ id, mkProduct id (product_Name product)
                         (product_Price product) (product_CategoryID product)
                         (product_CompanyID product)
                         (product_Description product)) s)
      as (H1 & H2 & H3 & _).
    { apply Hin. rewrite !elem_of_cons. auto. }
    split; [exact H1|]. split; [exact H2|]. intros Hok Hrt.
    etrans; [apply H3; [exact Hok|]|].
    + rewrite <-H1. exact Hrt.
    + f_equal. symmetry. exact H1.
  - destruct (alloc_create_spec "categories"
                (λ id, mkCategory id (category_Name category)) s)
      as (H1 & H2 & H3 & _).
    { apply Hin. rewrite !elem_of_cons. auto 10. }
    split; [exact H1|]. split; [exact H2|]. intros Hok Hrt.
    etrans; [apply H3; [exact Hok|]|].
    + rewrite <-H1. exact Hrt.
    + f_equal. symmetry. exact H1.
Qed.
End CreatingOthers.

(** ** Reopening a service *)

Section Reopening.
Context {JSON_int64 : JSON Z}.

Lemma NewBadgerService_counter (d : DB) (e : string) :
  counter_of (NewBadgerService d) e =
    if decide (e ∈ entities) then persisted_counter d e else 0.
Proof.
  unfold counter_of, NewBadgerService, initCounters.
  destruct (init_loop entities (mkService d ∅)) as [_ Hcs].
  simpl in Hcs. rewrite Hcs. by destruct (decide (e ∈ entities)).
Qed.

(** X9. Opening a service leaves the store as it is and seeds the
    counters from it: the counter of each of the five kinds is the value
    decoded from [counter:kind], or 0 when that key is absent or its
    value does not decode; every other counter is 0. *)
Theorem X9_counters_seeded (d : DB) (e : string) :
  db (NewBadgerService d) = d
  ∧ counter_of (NewBadgerService d) e =
      if decide (e ∈ entities) then
        match kv d !! counter_key e with
        | Some val => default 0 (unmarshal val)
        | None => 0
        end
      else 0.
Proof. split; [apply NewBadgerService_db | apply NewBadgerService_counter]. Qed.

(** X10. Identifiers of the five kinds survive a restart: when
    [getNextID] has persisted the identifier it returned (the transaction
    was not rejected, and the identifier encodes to a value that decodes
    back to it), a service reopened on the resulting store starts from
    that identifier, and its next identifier is the one after it. *)
Theorem X10_reopened_service_continues (s : BadgerService) (e val : string) :
  e ∈ entities →
  head (faults (db s)) ≠ Some true →
  marshal (getNextID e s).1 = Some val →
  unmarshal val = Some (getNextID e s).1 →
  counter_of (NewBadgerService (db (getNextID e s).2)) e = (getNextID e s).1
  ∧ (getNextID e (NewBadgerService (db (getNextID e s).2))).1
      = Int64.incr (getNextID e s).1.
Proof.
  intros He Hfault Hmarshal Hunmarshal.
  match goal with |- ?P ∧ _ => assert P as Hc end.
  { rewrite NewBadgerService_counter, decide_True by done.
    unfold persisted_counter. revert Hmarshal Hunmarshal.
    rewrite getNextID_eq. cbn [fst snd db]. intros Hmarshal Hunmarshal.
    rewrite Hmarshal. unfold commit, txn_set.
    destruct (faults (db s)) as [|[] fs]; [|done|]; simpl;
      rewrite lookup_insert_eq; simpl in Hunmarshal |- *;
      by rewrite Hunmarshal. }
  split; [done|]. by rewrite getNextID_result, Hc.
Qed.

(** X11. An identifier whose counter write was rejected is handed out
    again after a restart: on a service just opened over a store that
    rejects the next transaction, [getNextID] still returns an
    identifier, but a service reopened on the resulting store returns
    the same one. *)
Theorem X11_failed_write_reuses_identifier (d : DB) (e : string)
    (fs : list bool) :
  faults d = true :: fs →
  (getNextID e (NewBadgerService (db (getNextID e (NewBadgerService d)).2))).1
  = (getNextID e (NewBadgerService d)).1.
Proof.
  intros Hfault. rewrite !getNextID_result. f_equal.
  rewrite !NewBadgerService_counter.
  destruct (decide (e ∈ entities)); [|done].
  unfold persisted_counter. rewrite getNextID_eq. cbn [snd db].
  rewrite NewBadgerService_db. unfold commit. by rewrite Hfault.
Qed.
End Reopening.

Lemma X10_reopened_service_continues_witness :
  counter_of
    (NewBadgerService (JSON_int64 := Demo.JSON_int64)
       (db (getNextID (JSON_int64 := Demo.JSON_int64) "users"
              Demo.working_service).2)) "users"
  = (getNextID (JSON_int64 := Demo.JSON_int64) "users"
       Demo.working_service).1
  ∧ (getNextID (JSON_int64 := Demo.JSON_int64) "users"
       (NewBadgerService (JSON_int64 := Demo.JSON_int64)
          (db (getNextID (JSON_int64 := Demo.JSON_int64) "users"
                 Demo.working_service).2))).1
    = Int64.incr
        (getNextID (JSON_int64 := Demo.JSON_int64) "users"
           Demo.working_service).1.
Proof.
  apply (X10_reopened_service_continues (JSON_int64 := Demo.JSON_int64)
           Demo.working_service "users" "1").
  - repeat constructor.
  - discriminate.
  - vm_compute. reflexivity.
  - vm_compute. reflexivity.
Defined.

Lemma X11_failed_write_reuses_identifier_witness :
  (getNextID (JSON_int64 := Demo.JSON_int64) "users"
     (NewBadgerService (JSON_int64 := Demo.JSON_int64)
        (db (getNextID (JSON_int64 := Demo.JSON_int64) "users"
               (NewBadgerService (JSON_int64 := Demo.JSON_int64)
                  (db Demo.failing_service))).2))).1
  = (getNextID (JSON_int64 := Demo.JSON_int64) "users"
       (NewBadgerService (JSON_int64 := Demo.JSON_int64)
          (db Demo.failing_service))).1.
Proof.
  apply (X11_failed_write_reuses_identifier (JSON_int64 := Demo.JSON_int64)
           (db Demo.failing_service) "users" []).
  reflexivity.
Defined.

(** ** More on the joins *)

Section MoreJoins.
Context {JSON_User : JSON User} {JSON_Company : JSON Company}
        {JSON_Order : JSON Order} {JSON_Product : JSON Product}
        {JSON_Category : JSON Category} {V : Valid}.
Variable lent : Lent.

Lemma GetOrdersWithDetails_eq s :
  GetOrdersWithDetails lent s =
    (match (list_ (T := Order) lent "orders" s).1 with
     | Err err => ([], Some err)
     | Ok orders => (omap (order_row s) orders, None)
     end, s).
Proof.
  unfold GetOrdersWithDetails. rewrite bind_apply.
  rewrite (read_only_apply (list_ lent "orders") s) by apply read_only_list.
  cbn [fst snd]. destruct (list_ lent "orders" s).1 as [orders|err]; [|done].
  rewrite bind_apply, forM_read_only.
  - cbn [fst snd]. rewrite ret_apply. f_equal. f_equal.
    rewrite <-(app_nil_l (omap _ orders)), <-foldl_snoc_omap.
    apply foldl_ext. intros results order. unfold order_row.
    rewrite bind_apply.
    rewrite (read_only_apply (get "users" _) s) by apply read_only_get.
    cbn [fst snd]. destruct (get "users" _ s).1 as [user|]; [|done].
    rewrite bind_apply.
    rewrite (read_only_apply (get "products" _) s) by apply read_only_get.
    cbn [fst snd]. destruct (get "products" _ s).1 as [product|]; [|done].
    rewrite bind_apply.
    by destruct (get "categories" _ s).1.
  - intros results order.
    apply read_only_bind; [apply read_only_get|].
    intros [user|err]; [|apply read_only_ret].
    apply read_only_bind; [apply read_only_get|].
    intros [product|err]; [|apply read_only_ret].
    apply read_only_bind; [apply read_only_get|].
    intros [category|err]; apply read_only_ret.
Qed.

Lemma order_row_Some s order row :
  order_row s order = Some row ↔
    od_Order row = order
    ∧ (get (T := User) "users" (order_UserID order) s).1 = Ok (od_User row)
    ∧ (get (T := Product) "products" (order_ProductID order) s).1
        = Ok (od_Product row)
    ∧ (get (T := Category) "categories"
         (product_CategoryID (od_Product row)) s).1 = Ok (od_Category row).
Proof.
  unfold order_row. split.
  - destruct (get "users" _ s).1 as [user|]; [|done].
    destruct (get "products" _ s).1 as [product|]; [|done].
    destruct (get "categories" _ s).1 as [category|] eqn:Hc; [|done].
    intros [= <-]. cbn [od_Order od_User od_Product od_Category].
    by rewrite Hc.
  - intros (<- & -> & -> & ->). by destruct row.
Qed.

(** X12. When the orders can be listed, [GetOrdersWithDetails] reports
    no error; a row is in the result exactly when its order is listed
    and its user, product and category are those that [get] finds by
    following the order's user and product and the product's category;
    the orders of the rows are, in listing order, the orders for which
    all three lookups succeed. *)
Theorem X12_orders_with_details (s : BadgerService) (orders : list Order) :
  (list_ (T := Order) lent "orders" s).1 = Ok orders →
  ∃ rows,
    (GetOrdersWithDetails lent s).1 = (rows, None)
    ∧ (∀ row, row ∈ rows ↔
         od_Order row ∈ orders
         ∧ (get (T := User) "users" (order_UserID (od_Order row)) s).1
             = Ok (od_User row)
         ∧ (get (T := Product) "products"
              (order_ProductID (od_Order row)) s).1 = Ok (od_Product row)
         ∧ (get (T := Category) "categories"
              (product_CategoryID (od_Product row)) s).1
             = Ok (od_Category row))
    ∧ od_Order <$> rows = filter (λ order, is_Some (order_row s order)) orders.
Proof.
  intros Hlist. rewrite GetOrdersWithDetails_eq, Hlist. cbn [fst].
  eexists. split; [reflexivity|]. split.
  - intros row. rewrite list_elem_of_omap. split.
    + intros (order & Hin & Hrow). apply order_row_Some in Hrow as (<- & ?).
      by split.
    + intros (Hin & Hrest). exists (od_Order row). split; [done|].
      by apply order_row_Some.
  - clear Hlist. induction orders as [|order orders IH]; [done|].
    rewrite filter_cons. cbn [omap list_omap].
    destruct (order_row s order) as [row|] eqn:Hrow.
    + rewrite decide_True by by eexists.
      rewrite fmap_cons, IH. f_equal. by apply order_row_Some in Hrow as [? _].
    + rewrite decide_False by by intros [? ?]. exact IH.
Qed.

Lemma user_order_row_eq s userID user order :
  (get (T := User) "users" userID s).1 = Ok user →
  user_order_row s userID user order =
    if decide (order_UserID order = userID) then order_row s order else None.
Proof.
  intros Huser. unfold user_order_row, order_row.
  destruct (Z.eqb_spec (order_UserID order) userID) as [Heq|Hne]; cbn [negb].
  - rewrite decide_True by done. by rewrite Heq, Huser.
  - by rewrite decide_False.
Qed.

(** X13. When no more than [PrefetchSize] keys are at or after
    ["orders:"], and for a user that exists: a call of
    [GetUserOrdersWithProducts] returns the rows that a call of
    [GetOrdersWithDetails] on the same store returns whose order carries
    the user's identifier, in the same order. *)
Theorem X13_user_orders_are_filtered_details (lent' : Lent)
    (s : BadgerService) (userID : Z) (user : User)
    (rows : list OrderWithDetails) :
  within_prefetch "orders" (kv (db s)) →
  (get (T := User) "users" userID s).1 = Ok user →
  (GetOrdersWithDetails lent s).1 = (rows, None) →
  (GetUserOrdersWithProducts lent' userID s).1 =
    (filter (λ row, order_UserID (od_Order row) = userID) rows, None).
Proof.
  intros Hin Huser.
  rewrite GetOrdersWithDetails_eq, GetUserOrdersWithProducts_eq.
  cbn [fst]. rewrite !list_within_prefetch by done.
  destruct (decode_items _) as [orders|err]; [|done].
  rewrite Huser. intros [= <-]. f_equal.
  induction orders as [|order orders IH]; [done|]. cbn [omap list_omap].
  rewrite (user_order_row_eq _ _ _ _ Huser), IH.
  destruct (order_row s order) as [row|] eqn:Hrow.
  - apply order_row_Some in Hrow as [Horder _].
    rewrite filter_cons, Horder. by destruct (decide (order_UserID order = userID)).
  - by destruct (decide (order_UserID order = userID)).
Qed.

(** X14. A join that reports an error returns nothing with it, and the
    error is that of one of its listings (for
    [GetUserOrdersWithProducts], that or the wrapped error of the user
    lookup): failed lookups of single records are never reported. *)
Theorem X14_errors_come_from_listings (s : BadgerService) :
  (∀ rows err,
     (GetUsersWithCompanies lent s).1 = (rows, Some err) →
     rows = [] ∧ (list_ (T := User) lent "users" s).1 = Err err)
  ∧ (∀ rows err,
       (GetOrdersWithDetails lent s).1 = (rows, Some err) →
       rows = [] ∧ (list_ (T := Order) lent "orders" s).1 = Err err)
  ∧ (∀ rows err,
       (GetCompanyStats lent s).1 = (rows, Some err) →
       rows = []
       ∧ ((list_ (T := Company) lent "companies" s).1 = Err err
          ∨ (list_ (T := User) lent "users" s).1 = Err err
          ∨ (list_ (T := Order) lent "orders" s).1 = Err err))
  ∧ (∀ userID rows err,
       (GetUserOrdersWithProducts lent userID s).1 = (rows, Some err) →
       rows = []
       ∧ ((list_ (T := Order) lent "orders" s).1 = Err err
          ∨ ∃ e, (get (T := User) "users" userID s).1 = Err e
                 ∧ err = ErrWrap "user not found" e))
  ∧ (∀ map_range sort_Slice result err,
       (GetTopSellingProductsByCategory lent map_range sort_Slice s).1
         = (result, Some err) →
       result = ∅
       ∧ ((list_ (T := Order) lent "orders" s).1 = Err err
          ∨ (list_ (T := Product) lent "products" s).1 = Err err
          ∨ (list_ (T := Category) lent "categories" s).1 = Err err)).
Proof.
  split; [|split; [|split; [|split]]].
  - intros rows err. rewrite GetUsersWithCompanies_eq. cbn [fst].
    destruct (list_ lent "users" s).1; [done|]. by intros [= <- <-].
  - intros rows err. rewrite GetOrdersWithDetails_eq. cbn [fst].
    destruct (list_ lent "orders" s).1; [done|]. by intros [= <- <-].
  - intros rows err. rewrite GetCompanyStats_eq. cbn [fst].
    destruct (list_ lent "companies" s).1; [|intros [= <- <-]; auto].
    destruct (list_ lent "users" s).1; [|intros [= <- <-]; auto].
    destruct (list_ lent "orders" s).1; [done|intros [= <- <-]; auto].
  - intros userID rows err. rewrite GetUserOrdersWithProducts_eq. cbn [fst].
    destruct (list_ lent "orders" s).1; [|intros [= <- <-]; auto].
    destruct (get "users" userID s).1 as [user|e]; [done|].
    intros [= <- <-]. split; [done|]. right. by exists e.
  - intros map_range sort_Slice result err.
    unfold GetTopSellingProductsByCategory. rewrite bind_apply.
    rewrite (read_only_apply (list_ lent "orders") s) by apply read_only_list.
    cbn [fst snd]. destruct (list_ lent "orders" s).1; [|intros [= <- <-]; auto].
    rewrite bind_apply.
    rewrite (read_only_apply (list_ lent "products") s) by apply read_only_list.
    cbn [fst snd]. destruct (list_ lent "products" s).1; [|intros [= <- <-]; auto].
    rewrite bind_apply.
    rewrite (read_only_apply (list_ lent "categories") s) by apply read_only_list.
    cbn [fst snd].
    destruct (list_ lent "categories" s).1; [done|intros [= <- <-]; auto].
Qed.
End MoreJoins.

Lemma X12_orders_with_details_witness :
  ∃ rows,
    (GetOrdersWithDetails (JSON_User := Demo.JSON_User)
       (JSON_Order := Demo.JSON_Order) (JSON_Product := Demo.JSON_Product)
       (JSON_Category := Demo.JSON_Category) (V := Demo.any_text) Demo.handed_on Demo.shop).1 = (rows, None)
    ∧ od_Order <$> rows = [Demo.o1; Demo.o4].
Proof.
  destruct (X12_orders_with_details (JSON_User := Demo.JSON_User)
              (JSON_Order := Demo.JSON_Order)
              (JSON_Product := Demo.JSON_Product)
              (JSON_Category := Demo.JSON_Category) (V := Demo.any_text) Demo.handed_on Demo.shop
              [Demo.o1; Demo.o2; Demo.o3; Demo.o4])
    as (rows & Hrows & _ & Horders).
  - vm_compute. reflexivity.
  - exists rows. split; [exact Hrows|]. rewrite Horders.
    vm_compute. reflexivity.
Defined.

Lemma X13_user_orders_are_filtered_details_witness :
  (GetUserOrdersWithProducts (JSON_User := Demo.JSON_User)
     (JSON_Order := Demo.JSON_Order) (JSON_Product := Demo.JSON_Product)
     (JSON_Category := Demo.JSON_Category) (V := Demo.any_text) Demo.handed_on 1 Demo.shop).1
  = (filter (λ row, order_UserID (od_Order row) = 1)
       [mkOrderWithDetails Demo.o1 Demo.u1 Demo.p1 Demo.c1;
        mkOrderWithDetails Demo.o4 Demo.u3 Demo.p4 Demo.c1], None).
Proof.
  apply (X13_user_orders_are_filtered_details (JSON_User := Demo.JSON_User)
           (JSON_Order := Demo.JSON_Order)
           (JSON_Product := Demo.JSON_Product)
           (JSON_Category := Demo.JSON_Category) (V := Demo.any_text)
           Demo.handed_on Demo.handed_on Demo.shop 1 Demo.u1).
  - unfold within_prefetch. vm_compute. lia.
  - vm_compute. reflexivity.
  - vm_compute. reflexivity.
Defined.

(** ** Counting by group *)

Lemma length_filter_split {A} (P : A → Prop) `{∀ x, Decision (P x)}
    (l : list A) :
  (length (filter P l) + length (filter (λ x, ¬ P x) l))%nat = length l.
Proof.
  induction l as [|x l IH]; [done|]. rewrite !filter_cons.
  destruct (decide (P x)).
  - rewrite decide_False by tauto. simpl. lia.
  - rewrite decide_True by tauto. simpl. lia.
Qed.

(** Groups under distinct keys do not share elements. *)
Lemma count_by_key_le {A} (key : A → option Z) (ks : list Z) :
  NoDup ks →
  ∀ l : list A,
    (sum_list ((λ k, length (filter (λ x, key x = Some k) l)) <$> ks)
     ≤ length l)%nat.
Proof.
  induction 1 as [|k ks Hk Hks IH]; intros l; simpl; [lia|].
  rewrite <-(length_filter_split (λ x, key x = Some k) l).
  apply Nat.add_le_mono_l.
  etrans; [|apply (IH (filter (λ x, ¬ key x = Some k) l))].
  apply Nat.eq_le_incl. f_equal. apply list_fmap_ext.
  intros _ k' Hk'%list_elem_of_lookup_2. f_equal.
  rewrite list_filter_filter. apply list_filter_iff. intros x.
  split; [|tauto]. intros Hx. split; [done|]. congruence.
Qed.

Lemma sum_Z_of_nat (ns : list nat) :
  foldr Z.add 0 (Z.of_nat <$> ns) = Z.of_nat (sum_list ns).
Proof.
  induction ns as [|n ns IH]; [done|].
  change (sum_list (n :: ns)) with (n + sum_list ns)%nat.
  rewrite fmap_cons. cbn [foldr]. rewrite IH. lia.
Qed.

Section StatsTotals.
Context {JSON_User : JSON User} {JSON_Company : JSON Company}
        {JSON_Order : JSON Order} {V : Valid}.
Variable lent : Lent.

(** X15. When the listed companies have pairwise distinct identifiers,
    [GetCompanyStats] counts no user and no order twice: the user counts
    of its rows add up to at most the number of users, and the order
    counts to at most the number of orders. *)
Theorem X15_company_stats_count_once (s : BadgerService)
    (companies : list Company) (users : list User) (orders : list Order) :
  (list_ (T := Company) lent "companies" s).1 = Ok companies →
  (list_ (T := User) lent "users" s).1 = Ok users →
  (list_ (T := Order) lent "orders" s).1 = Ok orders →
  NoDup (company_ID <$> companies) →
  ∃ rows,
    (GetCompanyStats lent s).1 = (rows, None)
    ∧ foldr Z.add 0 (cs_UserCount <$> rows) ≤ Z.of_nat (length users)
    ∧ foldr Z.add 0 (cs_OrderCount <$> rows) ≤ Z.of_nat (length orders).
Proof.
  intros Hcompanies Husers Horders Hids.
  rewrite GetCompanyStats_eq, Hcompanies, Husers, Horders. cbn [fst].
  eexists. split; [reflexivity|].
  split.
  - assert (cs_UserCount <$> (company_stats users orders <$> companies)
            = Z.of_nat <$> ((λ k, length (filter
                (λ user, Some (user_CompanyID user) = Some k) users))
              <$> (company_ID <$> companies))) as ->.
    { rewrite <-!list_fmap_compose. apply list_fmap_ext.
      intros _ company _. unfold compose.
      rewrite company_stats_eq. cbn [cs_UserCount].
      do 2 f_equal. unfold users_of_company. apply list_filter_iff.
      intros user. split; congruence. }
    rewrite sum_Z_of_nat. apply inj_le.
    by apply (count_by_key_le (λ user, Some (user_CompanyID user))).
  - assert (cs_OrderCount <$> (company_stats users orders <$> companies)
            = Z.of_nat <$> ((λ k, length (filter
                (λ order, order_company users order = Some k) orders))
              <$> (company_ID <$> companies))) as ->.
    { rewrite <-!list_fmap_compose. apply list_fmap_ext.
      intros _ company _. unfold compose.
      by rewrite company_stats_eq. }
    rewrite sum_Z_of_nat. apply inj_le.
    by apply (count_by_key_le (order_company users)).
Qed.
End StatsTotals.

Lemma X15_company_stats_count_once_witness :
  ∃ rows,
    (GetCompanyStats (JSON_User := Demo.JSON_User)
       (JSON_Company := Demo.JSON_Company) (JSON_Order := Demo.JSON_Order) (V := Demo.any_text) Demo.handed_on
       Demo.shop).1 = (rows, None)
    ∧ foldr Z.add 0 (cs_UserCount <$> rows)
      ≤ Z.of_nat (length [Demo.u1; Demo.u2; Demo.u3])
    ∧ foldr Z.add 0 (cs_OrderCount <$> rows)
      ≤ Z.of_nat (length [Demo.o1; Demo.o2; Demo.o3; Demo.o4]).
Proof.
  apply (X15_company_stats_count_once (JSON_User := Demo.JSON_User)
           (JSON_Company := Demo.JSON_Company)
           (JSON_Order := Demo.JSON_Order) (V := Demo.any_text) Demo.handed_on Demo.shop
           [Demo.companyA; Demo.companyB]).
  - vm_compute. reflexivity.
  - vm_compute. reflexivity.
  - vm_compute. reflexivity.
  - apply (bool_decide_unpack _). vm_compute. reflexivity.
Defined.

(** ** Groups of the top-selling report *)

Lemma foldl_group_nonempty `{Countable K} {T V} (key : T → K) (f : T → V)
    (xs : list T) : ∀ m : gmap K (list V),
  (∀ k l, m !! k = Some l → l ≠ []) →
  ∀ k l,
    foldl (λ m x, <[key x := default [] (m !! key x) ++ [f x]]> m) m xs !! k
    = Some l →
    l ≠ [].
Proof.
  induction xs as [|x xs IH]; intros m Hm; simpl; [done|].
  apply IH. intros k l. rewrite lookup_insert.
  destruct (decide (key x = k)) as [_|_]; [|apply Hm].
  intros [= <-]. by destruct (default [] (m !! key x)).
Qed.

Section TopSellingGroups.
Context {JSON_Order : JSON Order} {JSON_Product : JSON Product}
        {JSON_Category : JSON Category} {V : Valid}.
Variable lent : Lent.
Variable map_range : gmap Z ProductStats → list (Z * ProductStats).
Variable sort_Slice :
  (ProductStats → ProductStats → bool) → list ProductStats → list ProductStats.
Hypothesis Hrange : map_range_spec map_range.
Hypothesis Hsort : sort_Slice_spec sort_Slice.

(** X16. In a result of [GetTopSellingProductsByCategory] no group is
    empty, no group holds an entry twice, every entry counts at least one
    order, and entries of the same product identifier are one entry, of
    one group: a product occurs in one group only, and once in it. *)
Theorem X16_top_selling_groups (s : BadgerService)
    (result : gmap string (list ProductStats)) :
  (GetTopSellingProductsByCategory lent map_range sort_Slice s).1 = (result, None) →
  (∀ g l, result !! g = Some l → l ≠ [])
  ∧ (∀ g, NoDup (default [] (result !! g)))
  ∧ (∀ g x, x ∈ default [] (result !! g) → 1 ≤ ps_TotalOrders x)
  ∧ (∀ g g' x y,
       x ∈ default [] (result !! g) →
       y ∈ default [] (result !! g') →
       product_ID (ps_Product x) = product_ID (ps_Product y) →
       g = g' ∧ x = y).
Proof.
  rewrite GetTopSellingProductsByCategory_eq. cbn [fst].
  destruct (list_ lent "orders" s).1 as [orders|]; [|done].
  destruct (list_ lent "products" s).1 as [products|]; [|done].
  destruct (list_ lent "categories" s).1 as [categories|]; [|done].
  intros [= <-]. split; [|split; [|split]].
  - intros g l. unfold top_selling. rewrite lookup_fmap.
    destruct (group_by_category _ _ _ !! g) as [l'|] eqn:Hg; [|done].
    intros [= <-]. unfold group_by_category in Hg.
    apply foldl_group_nonempty in Hg; [|by intros k l; rewrite lookup_empty].
    intros Hnil. destruct (Hsort by_revenue_desc l') as [Hperm _].
    rewrite Hnil in Hperm. by apply Permutation_nil_l in Hperm.
  - intros g. by apply top_selling_NoDup.
  - intros g x (product & _ & Hords & -> & _)%(elem_of_top_selling _ _ Hrange Hsort).
    unfold product_entry. cbn [ps_TotalOrders].
    destruct (orders_of_product _ _); [done|]. simpl length. lia.
  - intros g g' x y
      (p & Hp & _ & -> & ->)%(elem_of_top_selling _ _ Hrange Hsort)
      (p' & Hp' & _ & -> & ->)%(elem_of_top_selling _ _ Hrange Hsort) Hid.
    unfold product_entry in Hid. cbn [ps_Product] in Hid.
    rewrite Hid, Hp' in Hp. by injection Hp as ->.
Qed.
End TopSellingGroups.

Lemma X16_top_selling_groups_witness :
  ∃ result,
    (GetTopSellingProductsByCategory (JSON_Order := Demo.JSON_Order)
       (JSON_Product := Demo.JSON_Product)
       (JSON_Category := Demo.JSON_Category) (V := Demo.any_text)
       Demo.handed_on (λ m, map_to_list m) Demo.insertion_sort Demo.shop).1
    = (result, None)
    ∧ (∀ g l, result !! g = Some l → l ≠ [])
    ∧ (∀ g, NoDup (default [] (result !! g))).
Proof.
  pose (result :=
    (GetTopSellingProductsByCategory (JSON_Order := Demo.JSON_Order)
       (JSON_Product := Demo.JSON_Product)
       (JSON_Category := Demo.JSON_Category) (V := Demo.any_text)
       Demo.handed_on (λ m, map_to_list m) Demo.insertion_sort
       Demo.shop).1.1).
  assert ((GetTopSellingProductsByCategory (JSON_Order := Demo.JSON_Order)
       (JSON_Product := Demo.JSON_Product)
       (JSON_Category := Demo.JSON_Category) (V := Demo.any_text)
       Demo.handed_on (λ m, map_to_list m) Demo.insertion_sort Demo.shop).1
          = (result, None))
    as Hresult.
  { rewrite (GetTopSellingProductsByCategory_eq Demo.handed_on
               (λ m, map_to_list m) Demo.insertion_sort).
    reflexivity. }
  exists result. split; [exact Hresult|].
  destruct (X16_top_selling_groups (JSON_Order := Demo.JSON_Order)
              (JSON_Product := Demo.JSON_Product)
              (JSON_Category := Demo.JSON_Category) (V := Demo.any_text)
              Demo.handed_on (λ m, map_to_list m) Demo.insertion_sort
              map_to_list_range insertion_sort_spec Demo.shop result
              Hresult) as (Hne & Hnodup & _).
  split; [exact Hne | exact Hnodup].
Defined.
